(** * WAForth: the JavaScript shell around the WebAssembly core

    A shallow embedding of the [WAForth] class and of the [shell] import
    object it hands to the core, together with the properties
    of the loader, the string marshalling, the input buffer and the foreign
    call dispatcher. The terminal imports ([emit] with the default
    [onEmit], [key], [accept]) and the program store of Thurtle
    ([getProgram], [saveProgram], [deleteProgram]) follow.

    Conventions.
    - The state is that of a shell whose [load()] has completed: the core is
      instantiated and the input buffer exists.
    - JavaScript numbers that the code uses are integers; they are [Z].
      Values that cross into the core are 32-bit: the wrap-around of the
      conversion is written out ([ToInt32]).
    - A JavaScript string is the list of its UTF-16 code units.
    - Code that can throw runs in a state-and-exception monad; the state
      reached when an exception is raised is kept, as in JavaScript.
    - What the engine decides is part of the state or a parameter: the
      number of arguments [apply] accepts, and what a name resolves to on a
      function object. [#fns] is a plain object: a name that is not bound
      is looked up in its prototype. *)

From Stdlib Require Import ZArith List Lia.
From Stdlib Require String Ascii.
From stdpp Require Import base option list gmap.

Local Open Scope Z_scope.

(** ** JavaScript values *)

Module JS.

(** A string, as the sequence of its UTF-16 code units. *)
Definition string := list Z.

Definition is_code_unit (c : Z) : Prop := 0 <= c < 65536.
Definition is_string (s : string) : Prop := Forall is_code_unit s.

(** [ToInt32]: what a number becomes when it is passed to, or returned from,
    an [i32] parameter of an exported WebAssembly function. *)
Definition ToInt32 (n : Z) : Z := (n + 2 ^ 31) mod 2 ^ 32 - 2 ^ 31.

(** [ToUint8]: what an element store of a [Uint8Array] keeps. *)
Definition ToUint8 (n : Z) : Z := n mod 256.

Inductive Error :=
| RangeError
| TypeError
| CompileError
| LinkError
| RuntimeError (code : Z).

(** ** [TextEncoder.encode]: UTF-8 of the code points of a string.
    A surrogate that is not part of a pair is encoded as U+FFFD. *)

Definition is_high_surrogate (c : Z) : bool := (55296 <=? c) && (c <=? 56319).
Definition is_low_surrogate (c : Z) : bool := (56320 <=? c) && (c <=? 57343).

Definition utf8_of_code_point (cp : Z) : list Z :=
  if cp <? 128 then [cp]
  else if cp <? 2048 then
    [Z.lor 192 (Z.shiftr cp 6); Z.lor 128 (Z.land cp 63)]
  else if cp <? 65536 then
    [Z.lor 224 (Z.shiftr cp 12);
     Z.lor 128 (Z.land (Z.shiftr cp 6) 63);
     Z.lor 128 (Z.land cp 63)]
  else
    [Z.lor 240 (Z.shiftr cp 18);
     Z.lor 128 (Z.land (Z.shiftr cp 12) 63);
     Z.lor 128 (Z.land (Z.shiftr cp 6) 63);
     Z.lor 128 (Z.land cp 63)].

Definition pair_code_point (hi lo : Z) : Z :=
  65536 + Z.shiftl (hi - 55296) 10 + (lo - 56320).

Fixpoint TextEncoder_encode (s : string) : list Z :=
  match s with
  | [] => []
  | c :: rest =>
    if is_high_surrogate c then
      match rest with
      | d :: rest' =>
        if is_low_surrogate d
        then utf8_of_code_point (pair_code_point c d) ++ TextEncoder_encode rest'
        else utf8_of_code_point 65533 ++ TextEncoder_encode rest
      | [] => utf8_of_code_point 65533
      end
    else if is_low_surrogate c then
      utf8_of_code_point 65533 ++ TextEncoder_encode rest
    else utf8_of_code_point c ++ TextEncoder_encode rest
  end.

(** [Array.prototype.push] and [Array.prototype.pop] on an array held as the
    list of its elements in index order. *)
Definition array_push {A} (a : list A) (x : A) : list A := a ++ [x].

Definition array_pop {A} (a : list A) : option (A * list A) :=
  match reverse a with
  | [] => None
  | x :: r => Some (x, reverse r)
  end.

End JS.

Import JS.

(** Text written in the source, as the code units of its characters (which
    are all ASCII), and a template literal as its lines. *)
Module Literal.

Import Stdlib.Strings.String.

Fixpoint js (s : String.string) : JS.string :=
  match s with
  | String.EmptyString => []
  | String.String a s' => Z.of_nat (Ascii.nat_of_ascii a) :: js s'
  end.

Fixpoint template (lines : list String.string) : JS.string :=
  match lines with
  | [] => []
  | [l] => js l
  | l :: lines' => js l ++ 10 :: template lines'
  end.

(** The names of the members of [Object.prototype]. *)
Section Names.

Local Open Scope string_scope.

Definition name_proto : JS.string := js "__proto__".
Definition name_constructor : JS.string := js "constructor".
Definition name_toString : JS.string := js "toString".
Definition name_valueOf : JS.string := js "valueOf".

(** The members that throw a [TypeError] when called without a receiver. *)
Definition names_receiver : list JS.string :=
  map js ["toLocaleString"; "valueOf"; "hasOwnProperty"; "isPrototypeOf";
          "propertyIsEnumerable"; "__defineGetter__"; "__defineSetter__";
          "__lookupGetter__"; "__lookupSetter__"].

End Names.

End Literal.

(** ** The state the shell works on *)

(** An entry of the indirect call table: a reference to a function of some
    loaded module, named by a number. *)
Definition funcref := Z.

(** Modelled from the spec: [this.core], the instantiated core, whose source
    ([waforth.wat]) is missing. Its exports are taken as the spec describes
    them: a linear memory, an indirect call table that grows and never
    shrinks (no maximum is declared for it), an operand stack reached only
    through [push] and [pop], and the dictionary high-water mark that [here]
    reports. *)
Record Instance := {
  memory : list Z;                  (* exports.memory: the bytes of its buffer *)
  table : list (option funcref);    (* exports.table: null or a function *)
  stack : list Z;                   (* operand stack, top first *)
  dp : Z;                           (* what exports.here() returns *)
}.

Inductive LogEntry :=
| LogError (e : Error)              (* console.error(e) *)
| LogUnbound (fname : JS.string).   (* console.error("Unbound SCALL: %s", fname) *)

Record State := {
  core : Instance;
  buffer : list Z;                  (* #buffer *)
  console : list LogEntry;          (* what console.error has printed *)
  arguments_max : Z;                (* how many arguments the engine lets
                                       [apply] pass *)
}.

Definition set_memory (m : list Z) (st : State) : State :=
  {| core := {| memory := m; table := table (core st);
                stack := stack (core st); dp := dp (core st) |};
     buffer := buffer st; console := console st;
     arguments_max := arguments_max st |}.

Definition set_table (t : list (option funcref)) (st : State) : State :=
  {| core := {| memory := memory (core st); table := t;
                stack := stack (core st); dp := dp (core st) |};
     buffer := buffer st; console := console st;
     arguments_max := arguments_max st |}.

Definition set_stack (s : list Z) (st : State) : State :=
  {| core := {| memory := memory (core st); table := table (core st);
                stack := s; dp := dp (core st) |};
     buffer := buffer st; console := console st;
     arguments_max := arguments_max st |}.

Definition set_buffer (b : list Z) (st : State) : State :=
  {| core := core st; buffer := b; console := console st;
     arguments_max := arguments_max st |}.

Definition set_console (c : list LogEntry) (st : State) : State :=
  {| core := core st; buffer := buffer st; console := c;
     arguments_max := arguments_max st |}.

(** ** Computations that may throw *)

Inductive Res (A : Type) :=
| Ok (a : A)
| Throw (e : Error).
Arguments Ok {A} a.
Arguments Throw {A} e.

Definition M (A : Type) : Type := State -> Res A * State.

Definition ret {A} (a : A) : M A := fun st => (Ok a, st).

Definition throw {A} (e : Error) : M A := fun st => (Throw e, st).

Definition bindM {A B} (c : M A) (k : A -> M B) : M B :=
  fun st =>
    match c st with
    | (Ok a, st') => k a st'
    | (Throw e, st') => (Throw e, st')
    end.

Declare Scope js_scope.
Delimit Scope js_scope with js.
Notation "'let*' x := c 'in' k" := (bindM c (fun x => k))
  (at level 10, x name, c at level 100, k at level 200) : js_scope.
Notation "c ;; k" := (bindM c (fun _ => k))
  (at level 100, k at level 200, right associativity) : js_scope.
Open Scope js_scope.

(** [try { c } catch (e) { h e }] *)
Definition try_catch {A} (c : M A) (h : Error -> M A) : M A :=
  fun st =>
    match c st with
    | (Ok a, st') => (Ok a, st')
    | (Throw e, st') => h e st'
    end.

(** [try { c } catch (e) { h e } finally { f }] *)
Definition try_catch_finally {A} (c : M A) (h : Error -> M A) (f : M unit)
  : M A :=
  fun st =>
    match try_catch c h st with
    | (r, st') =>
      match f st' with
      | (Ok _, st'') => (r, st'')
      | (Throw e, st'') => (Throw e, st'')
      end
    end.

(** [for (let i = 0; i < n; ++i) body(i)] *)
Fixpoint for_up_from (count : nat) (i : Z) (body : Z -> M unit) : M unit :=
  match count with
  | O => ret tt
  | S count' => body i ;; for_up_from count' (i + 1) body
  end.

Definition for_up (n : Z) (body : Z -> M unit) : M unit :=
  for_up_from (Z.to_nat n) 0 body.

(** [for (let i = n - 1; i >= 0; --i) body(i)] *)
Fixpoint for_down_from (count : nat) (body : Z -> M unit) : M unit :=
  match count with
  | O => ret tt
  | S count' => body (Z.of_nat count') ;; for_down_from count' body
  end.

Definition for_down (n : Z) (body : Z -> M unit) : M unit :=
  for_down_from (Z.to_nat n) body.

Definition console_error (entry : LogEntry) : M unit :=
  fun st => (Ok tt, set_console (array_push (console st) entry) st).

(** ** Typed-array views on the linear memory *)

(** [new Uint8Array(memory.buffer, byteOffset, length)]: a window on the
    memory, not a copy. The constructor throws a [RangeError] when the window
    does not lie inside the buffer. *)
Record Uint8Array := {
  byteOffset : Z;
  byteLength : Z;
}.

Definition in_bounds (size addr len : Z) : bool :=
  (0 <=? addr) && (0 <=? len) && (addr + len <=? size).

Definition new_Uint8Array (addr len : Z) : M Uint8Array :=
  fun st =>
    if in_bounds (Z.of_nat (length (memory (core st)))) addr len
    then (Ok {| byteOffset := addr; byteLength := len |}, st)
    else (Throw RangeError, st).

(** The elements a view shows, read from the memory as it is now. *)
Definition view_elements (a : Uint8Array) (mem : list Z) : list Z :=
  take (Z.to_nat (byteLength a)) (drop (Z.to_nat (byteOffset a)) mem).

(** [a[i] = v]: a store outside the view is ignored. *)
Definition view_store (a : Uint8Array) (i v : Z) : M unit :=
  fun st =>
    if (0 <=? i) && (i <? byteLength a)
    then (Ok tt,
          set_memory (<[Z.to_nat (byteOffset a + i) := ToUint8 v]>
                        (memory (core st))) st)
    else (Ok tt, st).

(** [s.charCodeAt(i)], for an index inside the string. *)
Definition charCodeAt (s : JS.string) (i : Z) : Z :=
  default 0 (s !! Z.to_nat i).

(** [function loadString(memory, addr, len)]. The bytes of the view are
    the arguments of [String.fromCharCode.apply], which throws a
    [RangeError] when they are more than the engine lets it pass. *)
Definition loadString (addr len : Z) : M JS.string :=
  let* a := new_Uint8Array addr len in
  fun st =>
    if byteLength a <=? arguments_max st
    then (Ok (view_elements a (memory (core st))), st)
    else (Throw RangeError, st).

(** [function saveString(s, memory, addr)] *)
Definition saveString (s : JS.string) (addr : Z) : M unit :=
  let len := Z.of_nat (length s) in
  let* a := new_Uint8Array addr len in
  for_up len (fun i => view_store a i (charCodeAt s i)).

Definition PAD_OFFSET : Z := 400.

(** ** Values that functions return, and promises *)

(** A promise is settled, or it is pending on what remains of the operation
    behind it: [settle] runs when the host scheduler comes back to the
    operation, on the state of that moment, and its completion (normal or
    thrown) settles the promise. *)
Inductive Promise :=
| Fulfilled
| Rejected (e : Error)
| Pending (settle : M unit).

Inductive Value :=
| Undefined
| Number (n : Z)
| APromise (p : Promise).

(** [await p], seen from the continuation that runs once [p] has settled. *)
Definition await (p : Promise) : M unit :=
  match p with
  | Fulfilled => ret tt
  | Rejected e => throw e
  | Pending settle => settle
  end.

(** The promise of an asynchronous function whose body completed with [r]
    without reaching an [await]. *)
Definition promise_of {A} (r : Res A) : Promise :=
  match r with
  | Ok _ => Fulfilled
  | Throw e => Rejected e
  end.

(** What [bind] registers: [(f: WAForth) => void]. The value returned is the
    promise when the function is asynchronous. *)
Definition Handler : Type := M Value.

(** The literal ["EXECUTE"]. *)
Definition EXECUTE : JS.string := [69; 88; 69; 67; 85; 84; 69].

(** ** The class [WAForth] *)

Module WAForth.

(** Modelled from the spec: [core.exports.here] of the missing core. It
    reports the high-water mark and does not move it. *)
Definition exports_here : M Z :=
  fun st => (Ok (dp (core st)), st).

(** Modelled from the spec: [core.exports.pop] of the missing core. It
    removes the value pushed last and returns it. What it does on an empty
    stack the spec leaves open; here the core traps, and no property below
    says what happens there: each is stated for a stack that holds the cells
    popped, or holds whichever way a pop on an empty stack goes. *)
Definition exports_pop : M Z :=
  fun st =>
    match stack (core st) with
    | [] => (Throw (RuntimeError 0), st)
    | n :: rest => (Ok n, set_stack rest st)
    end.

(** Modelled from the spec: [core.exports.push] of the missing core. It puts
    the 32-bit value of its argument on top of the operand stack. *)
Definition exports_push (n : Z) : M unit :=
  fun st => (Ok tt, set_stack (ToInt32 n :: stack (core st)) st).

Section Methods.

(** [core.exports.interpret]: the interpreter of the missing core, taken as
    a parameter. Whatever it did before it threw stays done: the state it
    returns next to a [Throw] is the state at the throw. *)
Variable exports_interpret : M Z.

Definition here : M Z := exports_here.

Definition pop : M Z := exports_pop.

Definition popString : M JS.string :=
  let* len := pop in
  let* addr := pop in
  loadString addr len.

Definition push (n : Z) : M unit := exports_push n.

(** [pushString(s: string, offset = 0)]: the body makes no use of [offset]. *)
Definition pushString (s : JS.string) (offset : Z) : M Z :=
  let* h := here in
  let addr := h + PAD_OFFSET in
  saveString s addr ;;
  push addr ;;
  push (Z.of_nat (length s)) ;;
  ret (addr + PAD_OFFSET).

(** [this.#buffer.push(x)] *)
Definition buffer_push (x : Z) : M unit :=
  fun st => (Ok tt, set_buffer (array_push (buffer st) x) st).

Definition read (s : JS.string) : M unit :=
  let data := TextEncoder_encode s in
  for_down (Z.of_nat (length data))
    (fun i => buffer_push (default 0 (data !! Z.to_nat i))).

Definition interpret (s : JS.string) : M Value :=
  read s ;;
  try_catch
    (let* r := exports_interpret in ret (Number r))
    (fun _ => ret Undefined).

(** [this.#fns[name] = fn]. [#fns] is a plain object, held as the map of
    its own properties, with one exception: an assignment to ["__proto__"]
    adds no property but makes [fn] the prototype of [#fns]; the map keeps
    that prototype under the key ["__proto__"], which no own property can
    have. The map is [#fns] after an assignment that returned. What a name
    then resolves to is [shell.property], below. *)
Definition bind (name : JS.string) (fn : Handler)
    (fns : gmap JS.string Handler) : gmap JS.string Handler :=
  <[name := fn]> fns.

(** The function [bindAsync] registers.

    [async () => { const cbxt = this.pop(); try { await fn(this);
    this.push(-1) } catch (e) { console.error(e); this.push(0) } finally {
    this.push(cbxt); this.interpret("EXECUTE") } }]

    [resumption cbxt awaited] is the [try] statement with the awaited
    operation in the place of [await fn(this)]. When [fn] returns a promise
    the function suspends there and returns its own pending promise; the
    rest runs when the scheduler resumes it. When [fn] throws before it
    returns, the [catch] and [finally] blocks run at once. *)
Definition resumption (cbxt : Z) (awaited : M unit) : M unit :=
  try_catch_finally
    (awaited ;; push (-1))
    (fun e => console_error (LogError e) ;; push 0)
    (push cbxt ;; interpret EXECUTE ;; ret tt).

Definition async_handler (fn : M Promise) : Handler :=
  fun st =>
    match pop st with
    | (Throw e, st1) => (Ok (APromise (Rejected e)), st1)
    | (Ok cbxt, st1) =>
      match fn st1 with
      | (Ok p, st2) =>
        (Ok (APromise (Pending (resumption cbxt (await p)))), st2)
      | (Throw e, st2) =>
        match resumption cbxt (throw e) st2 with
        | (r, st3) => (Ok (APromise (promise_of r)), st3)
        end
      end
    end.

Definition bindAsync (name : JS.string) (fn : M Promise)
    (fns : gmap JS.string Handler) : gmap JS.string Handler :=
  <[name := async_handler fn]> fns.

End Methods.

End WAForth.

(** ** Dynamically loaded code units *)

(** Modelled from the spec: a code unit as the compiler of the missing core
    emits it. A unit imports the shared table and memory and has one entry
    point, which it registers at the table index written in its own element
    segment when it is instantiated. *)
Record CodeUnit := {
  unit_index : Z;
  unit_entry : funcref;
}.

(** The bytes handed to [new WebAssembly.Module]: the window on the memory,
    or the copy taken of it. *)
Inductive Bytes :=
| Window (a : Uint8Array)
| Copied (l : list Z).

Definition bytes_of (d : Bytes) (mem : list Z) : list Z :=
  match d with
  | Window a => view_elements a mem
  | Copied l => l
  end.

(** Modelled from the spec: [table.grow(delta)] on the table of the missing
    core, which declares no maximum: [delta] empty slots are appended. *)
Definition table_grow (delta : nat) : M unit :=
  fun st => (Ok tt, set_table (table (core st) ++ replicate delta None) st).

(** Modelled from the spec:
    [new WebAssembly.Instance(module, { env: { table, memory } })] for such a
    unit. The entry point is written into the shared table at the index of
    the unit; instantiation fails when that index is not inside the table.
    The memory and the length of the table stay as they are. *)
Definition new_Instance (u : CodeUnit) : M unit :=
  fun st =>
    let t := table (core st) in
    if (0 <=? unit_index u) && (unit_index u <? Z.of_nat (length t))
    then (Ok tt,
          set_table (<[Z.to_nat (unit_index u) := Some (unit_entry u)]> t) st)
    else (Throw LinkError, st).

(** ** The [shell] imports of the core *)

Module shell.

Definition getc : M Z :=
  fun st =>
    if (length (buffer st) =? 0)%nat then (Ok (-1), st)
    else
      match array_pop (buffer st) with
      | Some (c, rest) => (Ok c, set_buffer rest st)
      | None => (Ok (-1), st)
      end.

Section Loader.

(** The user agent is Safari. *)
Variable isSafari : bool.

(** The decoder and validator behind [new WebAssembly.Module]: the unit a
    sequence of bytes describes, or nothing when the bytes are malformed. *)
Variable decode : list Z -> option CodeUnit.

Definition new_Module (d : Bytes) : M CodeUnit :=
  fun st =>
    match decode (bytes_of d (memory (core st))) with
    | Some u => (Ok u, st)
    | None => (Throw CompileError, st)
    end.

(** [for (let i = 0; i < length; ++i) dataCopy.push(data[i])] *)
Fixpoint copy_from (count : nat) (i : nat) (data : list Z)
    (dataCopy : list Z) : list Z :=
  match count with
  | O => dataCopy
  | S count' =>
    copy_from count' (S i) data (array_push dataCopy (default 0 (data !! i)))
  end.

Definition load (offset len index : Z) : M unit :=
  let* a := new_Uint8Array offset len in
  let* data :=
    (fun st =>
       if isSafari
       then (Ok (Copied (copy_from (Z.to_nat len) 0
                           (view_elements a (memory (core st))) [])), st)
       else (Ok (Window a), st)) in
  (fun st =>
     let n := length (table (core st)) in
     if Z.of_nat n <=? index then table_grow n st else (Ok tt, st)) ;;
  try_catch
    (let* module := new_Module data in new_Instance module)
    (fun e => console_error (LogError e) ;; throw e).

End Loader.

Section Dispatcher.

(** What [this.#fns[fname]] evaluates to. *)
Inductive Member :=
| Bound (fn : Handler)          (* a function registered with [bind] *)
| Builtin (completion : Res unit)
    (* a built-in function, and how its call [fn(this)], which has no
       receiver, completes; it does nothing to the state *)
| NotCallable                   (* an object, or another truthy value, that
                                   is not a function *)
| Falsy                         (* [undefined], or another falsy value *)
| Raises (e : Error).           (* a getter that throws *)

(** The members [#fns] inherits from [Object.prototype], save [__proto__]:
    called without a receiver, [constructor] and [toString] return, the
    others throw a [TypeError] when they turn the receiver into an
    object. *)
Definition Object_prototype (fname : JS.string) : Member :=
  if bool_decide (fname ∈ [Literal.name_constructor; Literal.name_toString])
  then Builtin (Ok tt)
  else if bool_decide (fname ∈ Literal.names_receiver)
  then Builtin (Throw TypeError)
  else Falsy.

(** What a name resolves to on a function that has been made the prototype
    of [#fns], through the properties of that function and of
    [Function.prototype]: left to the engine. *)
Variable function_member : Handler -> JS.string -> Member.

Variable fns : gmap JS.string Handler.

(** [this.#fns[fname]]: an own property; for ["__proto__"] the prototype,
    which is [Object.prototype] unless [bind] has set it; otherwise what the
    prototype has under the name. *)
Definition property (fname : JS.string) : Member :=
  match fns !! fname with
  | Some fn => Bound fn
  | None =>
    if bool_decide (fname = Literal.name_proto) then NotCallable
    else
      match fns !! Literal.name_proto with
      | None => Object_prototype fname
      | Some f => function_member f fname
      end
  end.

Definition call : M unit :=
  let* len := WAForth.pop in
  let* addr := WAForth.pop in
  let* fname := loadString addr len in
  match property fname with
  | Falsy => console_error (LogUnbound fname)
  | Bound fn => fn ;; ret tt
  | Builtin completion => fun st => (completion, st)
  | NotCallable => throw TypeError
  | Raises e => throw e
  end.

End Dispatcher.

End shell.

(** ** Scenarios *)

(** The core reading [n] characters, one [shell.getc] call each. *)
Fixpoint drain (n : nat) : M (list Z) :=
  match n with
  | O => ret []
  | S n' =>
    let* c := shell.getc in
    let* cs := drain n' in
    ret (c :: cs)
  end.

(** A small machine to run the code on: 512 bytes of memory, a table of four
    empty slots, an empty stack, the high-water mark at 16, and an engine
    that lets [apply] pass 65535 arguments. *)
Definition machine : State :=
  {| core := {| memory := replicate 512 0; table := replicate 4 None;
                stack := []; dp := 16 |};
     buffer := []; console := []; arguments_max := 65535 |}.

(** The table once [load] has made room for [index]: doubled when [index]
    is not below its length, as it was otherwise. *)
Definition grown (index : Z) (t : list (option funcref))
  : list (option funcref) :=
  if Z.of_nat (length t) <=? index then t ++ replicate (length t) None else t.

(** The [len] bytes of the memory from address [offset] on: what
    [load offset len _] hands to the compiler, and the code units of the
    string [loadString] reads there. *)
Definition bytes_at (offset len : Z) (st : State) : list Z :=
  view_elements {| byteOffset := offset; byteLength := len |}
    (memory (core st)).

(** A string fits the scratch space when the region that starts
    [PAD_OFFSET] bytes past the high-water mark and has its length lies
    inside the memory, at addresses a 32-bit stack cell can hold. *)
Definition scratch_fits (s : JS.string) (st : State) : Prop :=
  let addr := dp (core st) + PAD_OFFSET in
  0 <= addr
  /\ addr + Z.of_nat (length s) <= Z.of_nat (length (memory (core st)))
  /\ addr + Z.of_nat (length s) < 2 ^ 31.

(** A string whose code units are all below 256. *)
Definition is_byte_string (s : JS.string) : Prop :=
  Forall (fun c => 0 <= c < 256) s.

(** Two regions of the memory, each given by its address and its length,
    have a byte in common. *)
Definition regions_overlap (a1 l1 a2 l2 : Z) : Prop :=
  exists x, a1 <= x < a1 + l1 /\ a2 <= x < a2 + l2.

(** The state with [console.error(e)] done. *)
Definition logged (e : Error) (st : State) : State :=
  set_console (console st ++ [LogError e]) st.

(** The state the core is entered with when an asynchronous call resumes:
    [flag] pushed, then the token [cbxt], and ["EXECUTE"] queued as input. *)
Definition resumed (cbxt flag : Z) (st : State) : State :=
  set_buffer (buffer st ++ reverse (TextEncoder_encode EXECUTE))
    (set_stack (cbxt :: flag :: stack (core st)) st).

(** An interpreter that returns at once, and an asynchronous operation with
    nothing to wait for. *)
Definition idle : M Z := ret 0.
Definition immediate : M Promise := ret Fulfilled.

(** A handler that pops one value and pushes its double, and its name. *)
Definition double : Handler :=
  let* n := WAForth.pop in
  WAForth.push (2 * n) ;;
  ret Undefined.

Definition double_name : JS.string := [100; 111; 117; 98; 108; 101].

(** A run of [load] calls, each given as [(offset, length, index)]; a call
    that throws aborts the [interpret] in flight, not the shell, and the next
    call finds the state it left. *)
Fixpoint loads (isSafari : bool) (decode : list Z -> option CodeUnit)
    (calls : list (Z * Z * Z)) (st : State) : State :=
  match calls with
  | [] => st
  | (offset, len, index) :: calls' =>
    loads isSafari decode calls'
      (snd (shell.load isSafari decode offset len index st))
  end.

(** [P] holds of every call of a run, between the state the call found and
    the state it left. *)
Fixpoint after_each (isSafari : bool) (decode : list Z -> option CodeUnit)
    (P : Z * Z * Z -> State -> State -> Prop)
    (calls : list (Z * Z * Z)) (st : State) : Prop :=
  match calls with
  | [] => True
  | (offset, len, index) :: calls' =>
    let st' := snd (shell.load isSafari decode offset len index st) in
    P (offset, len, index) st st' /\ after_each isSafari decode P calls' st'
  end.

(** A decoder that finds every sequence of bytes malformed. *)
Definition reject : list Z -> option CodeUnit := fun _ => None.


(** ** The program store of Thurtle *)

Module Programs.

Import Literal.

Record Program := {
  name : JS.string;
  program : JS.string;
  isExample : bool;
}.

(** White space and line terminators, as [String.prototype.trimStart] sees
    them. *)
Definition is_white_space (c : Z) : bool :=
  bool_decide (c ∈ [9; 10; 11; 12; 13; 32; 160; 5760; 8232; 8233; 8239;
                    8287; 12288; 65279])
  || ((8192 <=? c) && (c <=? 8202)).

Fixpoint trimStart (s : JS.string) : JS.string :=
  match s with
  | [] => []
  | c :: s' => if is_white_space c then trimStart s' else s
  end.

Section Data.

Import Stdlib.Strings.String.
Local Open Scope string_scope.

(** The array literal, before [.map(...)]. *)
Definition examples_literal : list Program :=
[
  {| name := js "Square"; isExample := true;
     program := template
     ["";
      "200 FORWARD";
      "90 RIGHT";
      "200 FORWARD";
      "90 RIGHT";
      "200 FORWARD";
      "90 RIGHT";
      "200 FORWARD";
      "90 RIGHT";
      ""] |};
  {| name := js "Square (w/ LOOP)"; isExample := true;
     program := template
     ["";
      ": SQUARE ( n -- )";
      "  4 0 DO";
      "    DUP FORWARD";
      "    90 RIGHT";
      "  LOOP";
      ";";
      "";
      "250 SQUARE";
      ""] |};
  {| name := js "Pentagram"; isExample := true;
     program := template
     ["";
      ": PENTAGRAM ( n -- )";
      "  18 RIGHT";
      "  5 0 DO";
      "    DUP FORWARD";
      "    144 RIGHT";
      "  LOOP";
      ";";
      "  ";
      "450 PENTAGRAM";
      ""] |};
  {| name := js "Seeker"; isExample := true;
     program := template
     ["";
      ": SEEKER ( n -- )";
      "  4 0 DO";
      "    DUP FORWARD";
      "    PENUP";
      "    DUP FORWARD";
      "    PENDOWN";
      "    DUP FORWARD";
      "    90 RIGHT";
      "  LOOP";
      ";";
      "";
      "100 SEEKER";
      ""] |};
  {| name := js "Flower"; isExample := true;
     program := template
     ["";
      ": SQUARE ( n -- )";
      "  4 0 DO";
      "    DUP FORWARD";
      "    90 RIGHT";
      "  LOOP";
      ";";
      "";
      ": FLOWER ( n -- )";
      "  24 0 DO";
      "    DUP SQUARE";
      "    15 RIGHT";
      "  LOOP";
      ";";
      "";
      "250 FLOWER";
      ""] |};
  {| name := js "Spiral (Recursive)"; isExample := true;
     program := template
     ["";
      ": SPIRAL ( n -- )";
      "  DUP 1 < IF DROP EXIT THEN ";
      "  DUP FORWARD";
      "  15 RIGHT";
      "  98 100 */ RECURSE";
      ";";
      "";
      "PENUP -500 -180 SETXY PENDOWN";
      "140 SPIRAL";
      ""] |};
  {| name := js "Outward Square Spiral"; isExample := true;
     program := template
     ["";
      ": SPIRAL ( n1 n2 -- )";
      "  OVER 800 > IF 2DROP EXIT THEN ";
      "  OVER FORWARD";
      "  DUP RIGHT";
      "  SWAP 10 + SWAP";
      "  RECURSE";
      ";";
      "";
      "1 90 SPIRAL";
      ""] |};
  {| name := js "Crooked Outward Square Spiral"; isExample := true;
     program := template
     ["";
      "91 CONSTANT ANGLE";
      "";
      ": SPIRAL ( n -- )";
      "  DUP 800 > IF DROP EXIT THEN ";
      "  DUP FORWARD";
      "  ANGLE RIGHT";
      "  10 +";
      "  RECURSE";
      ";";
      "";
      "1 SPIRAL"] |}
].

(** [const DEFAULT_PROGRAM = "Flower"], of the page that uses the store. *)
Definition DEFAULT_PROGRAM : JS.string := js "Flower".

End Data.

(** [const examples = [...].map((e) => ({ ...e, program:
    e.program.trimStart() }))] *)
Definition examples : list Program :=
  map (fun e => {| name := name e; program := trimStart (program e);
                   isExample := isExample e |})
    examples_literal.

(** The item ["thurtle:programs"] of [window.localStorage]: absent, a text
    [JSON.parse] or the spread of its result fails on, or the JSON text of an
    array of programs, held as the array it denotes. *)
Inductive Item :=
| Absent
| Unreadable
| Stored (l : list Program).

(** The module variable [programs] and what the module reaches of the
    browser: the stored item, whether [setItem] throws (the storage is full
    or denied), and how often the user was told that saving failed
    ([console.error(e); window.alert("Unable to save")]). *)
Record Store := {
  programs : list Program;
  item : Item;
  full : bool;
  alerts : nat;
}.

(** [let programs = examples.slice(); try { ... programs.push(...JSON.parse(
    prgs)) } catch (e) {}]: the value of [programs] when the module has
    loaded. *)
Definition loaded (i : Item) : list Program :=
  examples ++ match i with
              | Stored l => l
              | Absent | Unreadable => []
              end.

Definition listPrograms (w : Store) : list Program := programs w.

Definition getProgram (nm : JS.string) (w : Store) : option Program :=
  find (fun e => bool_decide (name e = nm)) (listPrograms w).

Definition savePrograms (w : Store) : Store :=
  if full w
  then {| programs := programs w; item := item w; full := full w;
          alerts := S (alerts w) |}
  else {| programs := programs w;
          item := Stored (filter (fun p => isExample p = false) (programs w));
          full := full w; alerts := alerts w |}.

(** [prg.program = program], on the object [getProgram] found: the first
    program of that name in the array. *)
Fixpoint assign_program (nm text : JS.string) (l : list Program)
  : list Program :=
  match l with
  | [] => []
  | p :: l' =>
    if bool_decide (name p = nm)
    then {| name := name p; program := text; isExample := isExample p |}
         :: l'
    else p :: assign_program nm text l'
  end.

Definition set_programs (l : list Program) (w : Store) : Store :=
  {| programs := l; item := item w; full := full w; alerts := alerts w |}.

Definition saveProgram (nm text : JS.string) (w : Store) : bool * Store :=
  match getProgram nm w with
  | Some _ =>
    (false, savePrograms (set_programs (assign_program nm text (programs w)) w))
  | None =>
    (true,
     savePrograms
       (set_programs
          (array_push (programs w)
             {| name := nm; isExample := false; program := text |}) w))
  end.

Definition deleteProgram (nm : JS.string) (w : Store) : Store :=
  savePrograms
    (set_programs (filter (fun p => name p <> nm) (programs w)) w).

(** The module reloaded, as on the next visit of the page: [programs] is
    computed afresh from the stored item. *)
Definition reload (w : Store) : Store :=
  set_programs (loaded (item w)) w.

End Programs.

(** ** The terminal imports of the core, and the default [onEmit] *)

Module terminal.

(** [String.fromCharCode(c)]: one code unit, [c] reduced to 16 bits. *)
Definition fromCharCode (c : Z) : JS.string := [c mod 65536].

(** What the default [onEmit] closes over, [buffer], and what it has handed
    to [console.log]. *)
Record Emitter := {
  line : list JS.string;
  printed : list JS.string;
}.

(** [buffer.join("")] *)
Definition join (parts : list JS.string) : JS.string := concat parts.

(** The function the constructor assigns to [onEmit]. *)
Definition default_onEmit (c : JS.string) (e : Emitter) : Emitter :=
  if bool_decide (c = [10])
  then {| line := []; printed := array_push (printed e) (join (line e)) |}
  else {| line := array_push (line e) c; printed := printed e |}.

(** [shell.emit], with [onEmit] the field of the shell, which may be unset. *)
Definition emit (onEmit : option (JS.string -> Emitter -> Emitter)) (c : Z)
    (e : Emitter) : Emitter :=
  match onEmit with
  | Some f => f (fromCharCode c) e
  | None => e
  end.

(** The core emitting a sequence of characters. *)
Fixpoint emit_all (onEmit : option (JS.string -> Emitter -> Emitter))
    (cs : list Z) (e : Emitter) : Emitter :=
  match cs with
  | [] => e
  | c :: cs' => emit_all onEmit cs' (emit onEmit c e)
  end.

(** A character code that [fromCharCode] turns into the line feed. *)
Definition is_line_feed (c : Z) : Prop := c mod 65536 = 10.

(** [shell.key], over the answers the successive [window.prompt] calls give
    ([None] for [null], a cancelled prompt): the value returned and the
    answers not yet asked for, or nothing when the answers run out with the
    loop still asking. *)
Fixpoint key (answers : list (option JS.string))
  : option (Z * list (option JS.string)) :=
  match answers with
  | [] => None
  | Some (c :: _) :: rest => Some (c, rest)
  | _ :: rest => key rest
  end.

(** An answer the loop of [key] asks again on: [null] or the empty string. *)
Definition is_no_answer (a : option JS.string) : Prop :=
  a = None \/ a = Some [].

(** [s.substring(0, n)] for an integer [n]. *)
Definition substring_to (s : JS.string) (n : Z) : JS.string :=
  take (Z.to_nat n) s.

(** [shell.accept], given what [window.prompt] answers. The line it prints
    with [console.log] has no effect on the state and is left out. *)
Definition accept (answer : option JS.string) (p n : Z) : M Z :=
  let input := substring_to (default [] answer) n in
  let* target := new_Uint8Array p (Z.of_nat (length input)) in
  for_up (Z.of_nat (length input))
    (fun i => view_store target i (charCodeAt input i)) ;;
  ret (Z.of_nat (length input)).

End terminal.

(** ** More scenarios *)

(** The last code unit of a string is the first half of a surrogate pair. *)
Definition ends_with_high_surrogate (s : JS.string) : bool :=
  match last s with
  | Some c => is_high_surrogate c
  | None => false
  end.

(** A string of ASCII characters. *)
Definition is_ascii_string (s : JS.string) : Prop :=
  Forall (fun c => 0 <= c < 128) s.

(** Every element is a byte. *)
Definition all_bytes (l : list Z) : Prop :=
  Forall (fun b => 0 <= b < 256) l.

(* ===================================================================== *)
(** * Properties *)
(* ===================================================================== *)

(** ** The monad *)

Lemma bindM_ok {A B} (c : M A) (k : A -> M B) st a st' :
  c st = (Ok a, st') -> bindM c k st = k a st'.
Proof. intros H. unfold bindM. by rewrite H. Qed.

Lemma bindM_throw {A B} (c : M A) (k : A -> M B) st e st' :
  c st = (Throw e, st') -> bindM c k st = (Throw e, st').
Proof. intros H. unfold bindM. by rewrite H. Qed.

(** ** The input buffer *)

Lemma array_pop_push {A} (a : list A) (x : A) :
  array_pop (array_push a x) = Some (x, a).
Proof.
  unfold array_pop, array_push.
  by rewrite reverse_snoc, reverse_involutive.
Qed.

Lemma set_buffer_buffer b st : buffer (set_buffer b st) = b.
Proof. reflexivity. Qed.

Lemma set_buffer_twice b b' st :
  set_buffer b (set_buffer b' st) = set_buffer b st.
Proof. reflexivity. Qed.

Lemma set_buffer_same st : set_buffer (buffer st) st = st.
Proof. by destruct st. Qed.

Lemma getc_empty st : buffer st = [] -> shell.getc st = (Ok (-1), st).
Proof. intros H. unfold shell.getc. by rewrite H. Qed.

Lemma getc_top b c st :
  buffer st = b ++ [c] -> shell.getc st = (Ok c, set_buffer b st).
Proof.
  intros H. unfold shell.getc. rewrite H.
  replace (length (b ++ [c]) =? 0)%nat with false.
  - change (b ++ [c]) with (array_push b c). by rewrite array_pop_push.
  - symmetry. apply Nat.eqb_neq. rewrite length_app. simpl. lia.
Qed.

(** The loop of [read] appends the first [n] bytes of [data], last first. *)
Lemma read_loop data n st :
  (n <= length data)%nat ->
  for_down_from n
    (fun i => WAForth.buffer_push (default 0 (data !! Z.to_nat i))) st
  = (Ok tt, set_buffer (buffer st ++ reverse (take n data)) st).
Proof.
  revert st. induction n as [|n IH]; intros st Hn.
  - simpl. unfold ret. rewrite take_0. change (reverse []) with (@nil Z).
    by rewrite app_nil_r, set_buffer_same.
  - simpl. unfold bindM at 1. unfold WAForth.buffer_push at 1.
    rewrite IH by lia. rewrite Nat2Z.id.
    destruct (data !! n) as [x|] eqn:Hx.
    + rewrite (take_S_r _ _ _ Hx), reverse_snoc. simpl.
      rewrite set_buffer_twice. unfold array_push. by rewrite <- app_assoc.
    + apply lookup_ge_None in Hx. lia.
Qed.

Lemma read_spec s st :
  WAForth.read s st
  = (Ok tt, set_buffer (buffer st ++ reverse (TextEncoder_encode s)) st).
Proof.
  unfold WAForth.read, for_down. rewrite Nat2Z.id.
  rewrite read_loop by lia. by rewrite firstn_all.
Qed.

(** Draining gives back, first pushed last, what lies on top of the buffer. *)
Lemma drain_top l b st :
  buffer st = b ++ reverse l ->
  drain (length l) st = (Ok l, set_buffer b st).
Proof.
  revert st. induction l as [|c l IH]; intros st Hb.
  - simpl. unfold ret. change (reverse []) with (@nil Z) in Hb.
    rewrite app_nil_r in Hb. subst b. by rewrite set_buffer_same.
  - simpl. rewrite reverse_cons, app_assoc in Hb.
    rewrite (bindM_ok _ _ _ _ _ (getc_top _ _ _ Hb)).
    rewrite (bindM_ok _ _ _ _ _ (IH _ (set_buffer_buffer _ _))).
    unfold ret. by rewrite set_buffer_twice.
Qed.

Lemma drain_app n m st l st' :
  drain n st = (Ok l, st') ->
  drain (n + m) st
  = (let* l' := drain m in ret (l ++ l')) st'.
Proof.
  revert st l. induction n as [|n IH]; intros st l H.
  - simpl in *. unfold ret in H. injection H as <- <-. simpl.
    unfold bindM. destruct (drain m st) as [[l'|e] st'']; reflexivity.
  - simpl in *. unfold bindM in H |- *.
    destruct (shell.getc st) as [[c|e] st1]; [|discriminate].
    destruct (drain n st1) as [[cs|e] st2] eqn:Hd; [|discriminate].
    unfold ret in H. injection H as <- <-.
    rewrite (IH _ _ Hd). unfold bindM.
    destruct (drain m st2) as [[l'|e] st3]; reflexivity.
Qed.

Lemma drain_empty n st :
  buffer st = [] -> drain n st = (Ok (replicate n (-1)), st).
Proof.
  intros Hb. induction n as [|n IH]; [reflexivity|].
  simpl. rewrite (bindM_ok _ _ _ _ _ (getc_empty _ Hb)).
  by rewrite (bindM_ok _ _ _ _ _ IH).
Qed.

(** On an empty buffer, [read s] and then one [getc] more than [s] has bytes:
    the bytes in forward order, then the sentinel. *)
Lemma read_drain_sentinel (s : JS.string) st :
  drain (length (TextEncoder_encode s) + 1)
    (snd (WAForth.read s (set_buffer [] st)))
  = (Ok (TextEncoder_encode s ++ [-1]), set_buffer [] st).
Proof.
  rewrite read_spec. cbn [snd].
  erewrite drain_app; [|by apply (drain_top _ [])].
  unfold bindM. rewrite set_buffer_twice.
  by rewrite drain_empty.
Qed.

(** C5. [read s] appends the UTF-8 bytes of [s] to the input buffer in
    reverse order, so that the core, taking characters off the end with
    [getc], receives them in their forward order; [getc] on an empty buffer
    returns the sentinel -1. In particular [read("AB")] on an empty buffer
    followed by three [getc] calls yields 65 ('A'), 66 ('B'), then -1. *)
Theorem read_then_drain_forward (s : JS.string) (st : State) :
  let bytes := TextEncoder_encode s in
  let st' := snd (WAForth.read s st) in
  buffer st' = buffer st ++ reverse bytes
  /\ drain (length bytes) st' = (Ok bytes, st)
  /\ shell.getc (set_buffer [] st) = (Ok (-1), set_buffer [] st)
  /\ drain (length bytes + 1) (snd (WAForth.read s (set_buffer [] st)))
     = (Ok (bytes ++ [-1]), set_buffer [] st)
  /\ drain 3 (snd (WAForth.read [65; 66] (set_buffer [] st)))
     = (Ok [65; 66; -1], set_buffer [] st).
Proof.
  cbv zeta. split; [|split; [|split; [|split]]].
  - by rewrite read_spec.
  - rewrite read_spec. cbn [snd].
    rewrite (drain_top (TextEncoder_encode s) (buffer st)) by reflexivity.
    by rewrite set_buffer_twice, set_buffer_same.
  - by apply getc_empty.
  - apply read_drain_sentinel.
  - apply (read_drain_sentinel [65; 66]).
Qed.

(** C10. Two [read] calls with nothing consumed in between: the core then
    receives the bytes of the second string, in forward order, before those
    of the first. *)
Theorem read_read_drain_last_first (s1 s2 : JS.string) (st : State) :
  let b1 := TextEncoder_encode s1 in
  let b2 := TextEncoder_encode s2 in
  let st' := snd ((WAForth.read s1 ;; WAForth.read s2) st) in
  drain (length b2 + length b1) st' = (Ok (b2 ++ b1), st).
Proof.
  cbv zeta. unfold bindM at 1. rewrite !read_spec. cbn [snd buffer set_buffer].
  erewrite drain_app;
    [|by apply (drain_top (TextEncoder_encode s2)
                  (buffer st ++ reverse (TextEncoder_encode s1)))].
  unfold bindM. rewrite set_buffer_twice.
  rewrite (drain_top (TextEncoder_encode s1) (buffer st)) by reflexivity.
  unfold ret. by rewrite !set_buffer_twice, set_buffer_same.
Qed.

(** ** [interpret] *)

Lemma interpret_unfold (exports_interpret : M Z) (s : JS.string) st :
  WAForth.interpret exports_interpret s st
  = match exports_interpret
            (set_buffer (buffer st ++ reverse (TextEncoder_encode s)) st)
    with
    | (Ok r, st') => (Ok (Number r), st')
    | (Throw _, st') => (Ok Undefined, st')
    end.
Proof.
  unfold WAForth.interpret.
  rewrite (bindM_ok _ _ _ _ _ (read_spec s st)).
  unfold try_catch, bindM, ret.
  by destruct (exports_interpret _) as [[r|e] st'].
Qed.

(** C7. Whatever the interpreter of the core does with a source text,
    [interpret] completes normally: a signal thrown by the core is caught and
    turned into [undefined], and the state is the one the core had reached,
    with everything it did before the signal. *)
Theorem interpret_discards_signal (exports_interpret : M Z)
    (s : JS.string) (st : State) :
  let entered := snd (WAForth.read s st) in
  snd (WAForth.interpret exports_interpret s st)
  = snd (exports_interpret entered)
  /\ fst (WAForth.interpret exports_interpret s st)
     = match fst (exports_interpret entered) with
       | Ok r => Ok (Number r)
       | Throw _ => Ok Undefined
       end.
Proof.
  cbv zeta. rewrite interpret_unfold, read_spec. cbn [snd].
  destruct (exports_interpret _) as [[r|e] st']; split; reflexivity.
Qed.

(** ** The loader *)

Lemma set_table_same st : set_table (table (core st)) st = st.
Proof. by destruct st as [[] ? ?]. Qed.

Lemma length_view_elements a mem :
  in_bounds (Z.of_nat (length mem)) (byteOffset a) (byteLength a) = true ->
  length (view_elements a mem) = Z.to_nat (byteLength a).
Proof.
  unfold in_bounds, view_elements. intros H.
  apply andb_prop in H as [H H3]. apply andb_prop in H as [H1 H2].
  rewrite length_take, length_drop. lia.
Qed.

Lemma copy_from_spec (data : list Z) count i acc :
  (i + count <= length data)%nat ->
  shell.copy_from count i data acc = acc ++ take count (drop i data).
Proof.
  revert i acc. induction count as [|count IH]; intros i acc Hle.
  - simpl. by rewrite take_0, app_nil_r.
  - simpl. rewrite IH by lia. unfold array_push.
    destruct (data !! i) as [x|] eqn:Hx.
    + rewrite (drop_S _ _ _ Hx). simpl. by rewrite <- app_assoc.
    + apply lookup_ge_None in Hx. lia.
Qed.

(** The copy taken on Safari holds the bytes the window shows. *)
Lemma copy_from_window a mem :
  in_bounds (Z.of_nat (length mem)) (byteOffset a) (byteLength a) = true ->
  shell.copy_from (Z.to_nat (byteLength a)) 0 (view_elements a mem) []
  = view_elements a mem.
Proof.
  intros H. pose proof (length_view_elements _ _ H) as Hl.
  rewrite copy_from_spec by (simpl; lia).
  rewrite drop_0, <- Hl. simpl. apply firstn_all.
Qed.

Lemma load_out_of_bounds isSafari decode offset len index st :
  in_bounds (Z.of_nat (length (memory (core st)))) offset len = false ->
  shell.load isSafari decode offset len index st = (Throw RangeError, st).
Proof.
  intros H. unfold shell.load.
  apply bindM_throw. unfold new_Uint8Array. by rewrite H.
Qed.

(** What [load] does once the window on the blob could be taken. *)
Lemma load_unfold isSafari decode offset len index st :
  in_bounds (Z.of_nat (length (memory (core st)))) offset len = true ->
  shell.load isSafari decode offset len index st
  = let t := grown index (table (core st)) in
    let st1 := set_table t st in
    match decode (bytes_at offset len st) with
    | None =>
      (Throw CompileError,
       set_console (console st ++ [LogError CompileError]) st1)
    | Some u =>
      if (0 <=? unit_index u) && (unit_index u <? Z.of_nat (length t))
      then (Ok tt,
            set_table (<[Z.to_nat (unit_index u) := Some (unit_entry u)]> t)
              st)
      else (Throw LinkError,
            set_console (console st ++ [LogError LinkError]) st1)
    end.
Proof.
  intros H. unfold shell.load.
  erewrite bindM_ok; [|unfold new_Uint8Array; by rewrite H].
  set (a := {| byteOffset := offset; byteLength := len |}).
  set (data := if isSafari
              then Copied (shell.copy_from (Z.to_nat len) 0
                             (view_elements a (memory (core st))) [])
              else Window a).
  assert (Hdata : forall st',
    memory (core st') = memory (core st) ->
    bytes_of data (memory (core st')) = bytes_at offset len st).
  { intros st' Hm. unfold data. destruct isSafari; simpl.
    - by apply (copy_from_window a).
    - by rewrite Hm. }
  rewrite (bindM_ok _ _ st data st) by (unfold data; by destruct isSafari).
  assert (Hgrow :
    (if Z.of_nat (length (table (core st))) <=? index
     then table_grow (length (table (core st))) st else (Ok tt, st))
    = (Ok tt, set_table (grown index (table (core st))) st)).
  { unfold grown, table_grow.
    destruct (_ <=? index); [done|by rewrite set_table_same]. }
  erewrite bindM_ok; [|exact Hgrow].
  unfold try_catch, bindM at 1, shell.new_Module.
  rewrite Hdata by reflexivity. cbv zeta.
  destruct (decode (bytes_at offset len st)) as [u|]; [|reflexivity].
  unfold new_Instance. cbn [table core set_table].
  by destruct (_ && _).
Qed.

Lemma length_grown index t :
  length (grown index t)
  = if Z.of_nat (length t) <=? index then (2 * length t)%nat else length t.
Proof.
  unfold grown. destruct (_ <=? index); [|done].
  rewrite length_app, length_replicate. lia.
Qed.

(** The length of the table after a [load] that could read its blob. *)
Lemma load_table_length isSafari decode offset len index st :
  in_bounds (Z.of_nat (length (memory (core st)))) offset len = true ->
  length (table (core (snd (shell.load isSafari decode offset len index st))))
  = length (grown index (table (core st))).
Proof.
  intros H. rewrite load_unfold by done. cbv zeta.
  destruct (decode _) as [u|]; [|reflexivity].
  destruct (_ && _); [|reflexivity].
  cbn [snd set_table core table]. apply length_insert.
Qed.

(** No [load] call makes the table shorter. *)
Lemma load_never_shrinks isSafari decode offset len index st :
  (length (table (core st))
   <= length (table (core
        (snd (shell.load isSafari decode offset len index st)))))%nat.
Proof.
  destruct (in_bounds (Z.of_nat (length (memory (core st)))) offset len)
    eqn:H.
  - rewrite load_table_length, length_grown by done.
    destruct (_ <=? index); lia.
  - by rewrite load_out_of_bounds.
Qed.

Lemma loads_never_shrink isSafari decode calls st :
  (length (table (core st))
   <= length (table (core (loads isSafari decode calls st))))%nat.
Proof.
  revert st. induction calls as [|[[offset len] index] calls IH]; intros st.
  - done.
  - simpl. etrans; [|apply IH]. apply load_never_shrinks.
Qed.

(** One doubling makes room for [index] when [index] is below twice the
    length the table had. *)
Lemma load_makes_room isSafari decode offset len index st :
  in_bounds (Z.of_nat (length (memory (core st)))) offset len = true ->
  index < 2 * Z.of_nat (length (table (core st))) ->
  index < Z.of_nat (length (table (core
            (snd (shell.load isSafari decode offset len index st))))).
Proof.
  intros H Hi. rewrite load_table_length, length_grown by done.
  destruct (_ <=? index) eqn:Hc; lia.
Qed.

(** An index that is at least twice the length of the table is still
    outside the table after the call: with four slots and index 8 the table
    is doubled once, to eight slots, and 8 is not below its length. *)
Lemma load_index_twice_the_length :
  let st' := snd (shell.load false reject 0 0 8 machine) in
  length (table (core machine)) = 4%nat
  /\ length (table (core st')) = 8%nat
  /\ ~ 8 < Z.of_nat (length (table (core st'))).
Proof. cbv zeta. split; [reflexivity|]. split; [reflexivity|]. simpl. lia. Qed.

(** C1, as the code has it. In every run of [load] calls no call makes the
    table shorter, and after each call that could read its blob and whose
    index was below twice the length of the table, as it is when the core
    registers each word at the next offset, the length of the table exceeds
    the index. *)
Theorem load_grows_enough (isSafari : bool)
    (decode : list Z -> option CodeUnit) (calls : list (Z * Z * Z))
    (st : State) :
  after_each isSafari decode
    (fun call before after =>
       let '(offset, len, index) := call in
       (length (table (core before)) <= length (table (core after)))%nat
       /\ (in_bounds (Z.of_nat (length (memory (core before)))) offset len
             = true ->
           index < 2 * Z.of_nat (length (table (core before))) ->
           index < Z.of_nat (length (table (core after)))))
    calls st.
Proof.
  revert st. induction calls as [|[[offset len] index] calls IH]; intros st.
  - exact I.
  - cbn [after_each]. split; [|apply IH]. split.
    + apply load_never_shrinks.
    + apply load_makes_room.
Qed.

(** A run in which the core hands out the indices 4, 5 and 8 in turn, on a
    table of four slots: every call finds room. *)
Example load_grows_enough_next_offsets :
  after_each false reject
    (fun call before after =>
       let '(offset, len, index) := call in
       index < Z.of_nat (length (table (core after))))
    [(0, 0, 4); (0, 0, 5); (0, 0, 8)] machine.
Proof. cbn. repeat split; lia. Qed.

(** C8. A [load] whose index equals the length of the table leaves the table
    exactly twice as long, once the call has got past reading its blob (a
    blob outside the memory makes the call throw before anything else); a
    [load] whose index is below the length of the table leaves its length as
    it was. *)
Theorem load_growth_boundary (isSafari : bool)
    (decode : list Z -> option CodeUnit) (offset len index : Z) (st : State) :
  let n := length (table (core st)) in
  let n' := length (table (core
              (snd (shell.load isSafari decode offset len index st)))) in
  (in_bounds (Z.of_nat (length (memory (core st)))) offset len = true ->
   index = Z.of_nat n -> n' = (2 * n)%nat)
  /\ (index < Z.of_nat n -> n' = n).
Proof.
  cbv zeta. split.
  - intros H Hi. rewrite load_table_length, length_grown by done.
    destruct (_ <=? index) eqn:Hc; lia.
  - intros Hi.
    destruct (in_bounds (Z.of_nat (length (memory (core st)))) offset len)
      eqn:H.
    + rewrite load_table_length, length_grown by done.
      destruct (_ <=? index) eqn:Hc; lia.
    + by rewrite load_out_of_bounds.
Qed.

Lemma load_growth_boundary_witness :
  length (table (core (snd (shell.load false reject 0 0 4 machine)))) = 8%nat
  /\ length (table (core (snd (shell.load true reject 0 0 3 machine))))
     = 4%nat.
Proof.
  split.
  - apply (proj1 (load_growth_boundary false reject 0 0 4 machine)).
    + reflexivity.
    + reflexivity.
  - apply (proj2 (load_growth_boundary true reject 0 0 3 machine)).
    reflexivity.
Defined.

(** A unit that decodes and whose slot lies inside the table is registered
    there, and the call returns. *)
Example load_registers :
  shell.load false (fun _ => Some {| unit_index := 3; unit_entry := 7 |})
    16 8 3 machine
  = (Ok tt, set_table [None; None; None; Some 7] machine).
Proof. reflexivity. Qed.

(** On a blob the compiler rejects, [load] throws after it has doubled the
    table: the table of four slots has eight when the error reaches the
    caller, not the four it had before the call. *)
Lemma load_failed_compile_keeps_growth :
  let r := shell.load false reject 0 0 4 machine in
  length (table (core machine)) = 4%nat
  /\ fst r = Throw CompileError
  /\ length (table (core (snd r))) = 8%nat
  /\ length (table (core (snd r))) <> length (table (core machine)).
Proof. cbv zeta. repeat split; try reflexivity. discriminate. Qed.

(** C2, as the code has it. [load] throws a [RangeError] and changes nothing
    when the blob does not lie inside the memory. Otherwise the growth step
    comes first and is not undone: the table is doubled when the index is not
    below its length. Then either the call returns, the unit decoded from the
    blob is instantiated, and the slot it names lies inside the table and
    holds its entry point; or compilation or instantiation fails, the error
    is logged and thrown again, and the table is the grown table with no slot
    written, so its length is twice the length before the call when the index
    was not below it and the length before the call otherwise. *)
Theorem load_completes_or_keeps_growth (isSafari : bool)
    (decode : list Z -> option CodeUnit) (offset len index : Z) (st : State) :
  let inside := in_bounds (Z.of_nat (length (memory (core st)))) offset len in
  let n := length (table (core st)) in
  let t := grown index (table (core st)) in
  match shell.load isSafari decode offset len index st with
  | (Ok _, st') =>
    inside = true
    /\ exists u,
        decode (bytes_at offset len st) = Some u
        /\ 0 <= unit_index u < Z.of_nat (length (table (core st')))
        /\ table (core st') !! Z.to_nat (unit_index u)
           = Some (Some (unit_entry u))
        /\ st' = set_table
                   (<[Z.to_nat (unit_index u) := Some (unit_entry u)]> t) st
  | (Throw e, st') =>
    (inside = false /\ e = RangeError /\ st' = st)
    \/ (inside = true
        /\ (e = CompileError \/ e = LinkError)
        /\ st' = set_console (console st ++ [LogError e]) (set_table t st)
        /\ length (table (core st'))
           = if Z.of_nat n <=? index then (2 * n)%nat else n)
  end.
Proof.
  cbv zeta.
  destruct (in_bounds (Z.of_nat (length (memory (core st)))) offset len)
    eqn:H.
  - rewrite load_unfold by done. cbv zeta.
    destruct (decode (bytes_at offset len st)) as [u|].
    + destruct (_ && _) eqn:Hin.
      * apply andb_prop in Hin as [H0 H1].
        apply Z.leb_le in H0. apply Z.ltb_lt in H1.
        split; [done|]. exists u. cbn [table core set_table].
        rewrite length_insert. repeat split; try done.
        apply list_lookup_insert_eq. lia.
      * right. repeat split; auto. cbn [table core set_table set_console].
        apply length_grown.
    + right. repeat split; auto. cbn [table core set_table set_console].
      apply length_grown.
  - rewrite load_out_of_bounds by done. left. done.
Qed.

(** ** Strings across the boundary *)

Lemma ToInt32_small n : - 2 ^ 31 <= n < 2 ^ 31 -> ToInt32 n = n.
Proof. intros H. unfold ToInt32. rewrite Z.mod_small; lia. Qed.

Lemma ToUint8_small c : 0 <= c < 256 -> ToUint8 c = c.
Proof. intros H. unfold ToUint8. by apply Z.mod_small. Qed.

Lemma map_ToUint8_byte_string s : is_byte_string s -> map ToUint8 s = s.
Proof.
  induction 1 as [|c s Hc _ IH]; [done|].
  simpl. by rewrite ToUint8_small, IH.
Qed.

Lemma set_memory_same st : set_memory (memory (core st)) st = st.
Proof. by destruct st as [[] ? ?]. Qed.

Lemma in_bounds_true size addr len :
  0 <= addr -> 0 <= len -> addr + len <= size ->
  in_bounds size addr len = true.
Proof.
  intros. unfold in_bounds.
  rewrite !andb_true_iff, !Z.leb_le. lia.
Qed.

(** Reading back a region just written gives what was written. *)
Lemma take_drop_inserts (addr : nat) (k mem : list Z) :
  (addr + length k <= length mem)%nat ->
  take (length k) (drop addr (list_inserts addr k mem)) = k.
Proof.
  intros H. apply list_eq. intros i.
  rewrite lookup_take, lookup_drop. case_decide as Hi.
  - rewrite list_lookup_inserts by lia. f_equal. lia.
  - symmetry. apply lookup_ge_None. lia.
Qed.

(** The loop of [saveString], from index [k] on, for [count] rounds. *)
Lemma saveString_loop (s : JS.string) a count k st :
  byteLength a = Z.of_nat (length s) ->
  0 <= byteOffset a ->
  (k + count <= length s)%nat ->
  for_up_from count (Z.of_nat k)
    (fun i => view_store a i (charCodeAt s i)) st
  = (Ok tt,
     set_memory
       (list_inserts (Z.to_nat (byteOffset a) + k)
          (map ToUint8 (take count (drop k s))) (memory (core st))) st).
Proof.
  intros Hlen Hoff. revert k st.
  induction count as [|count IH]; intros k st Hk.
  - cbn [for_up_from]. unfold ret.
    rewrite take_0. cbn [map list_inserts]. by rewrite set_memory_same.
  - cbn [for_up_from]. unfold bindM at 1, view_store at 1.
    replace ((0 <=? Z.of_nat k) && (Z.of_nat k <? byteLength a)) with true
      by (symmetry; rewrite andb_true_iff, Z.leb_le, Z.ltb_lt; lia).
    replace (Z.of_nat k + 1) with (Z.of_nat (S k)) by lia.
    rewrite IH by lia. f_equal.
    destruct (s !! k) as [c|] eqn:Hc;
      [|apply lookup_ge_None in Hc; lia].
    rewrite (drop_S _ _ _ Hc). unfold charCodeAt. rewrite Nat2Z.id, Hc.
    cbn [set_memory memory core take map list_inserts default].
    replace (Z.to_nat (byteOffset a + Z.of_nat k))
      with (Z.to_nat (byteOffset a) + k)%nat by lia.
    replace (Z.to_nat (byteOffset a) + S k)%nat
      with (S (Z.to_nat (byteOffset a) + k)) by lia.
    by rewrite list_insert_inserts_lt by lia.
Qed.

Lemma saveString_spec (s : JS.string) addr st :
  0 <= addr ->
  addr + Z.of_nat (length s) <= Z.of_nat (length (memory (core st))) ->
  saveString s addr st
  = (Ok tt,
     set_memory
       (list_inserts (Z.to_nat addr) (map ToUint8 s) (memory (core st))) st).
Proof.
  intros H0 H1. unfold saveString.
  erewrite bindM_ok;
    [|unfold new_Uint8Array; by rewrite in_bounds_true by lia].
  unfold for_up. rewrite Nat2Z.id.
  rewrite (saveString_loop s _ (length s) 0 st) by (simpl; lia).
  cbn [byteOffset]. by rewrite drop_0, firstn_all, Nat.add_0_r.
Qed.

Lemma loadString_spec addr len st :
  in_bounds (Z.of_nat (length (memory (core st)))) addr len = true ->
  len <= arguments_max st ->
  loadString addr len st = (Ok (bytes_at addr len st), st).
Proof.
  intros H Hmax. unfold loadString.
  erewrite bindM_ok; [|unfold new_Uint8Array; by rewrite H].
  cbn [byteLength]. by rewrite (proj2 (Z.leb_le _ _) Hmax).
Qed.

(** More bytes than [apply] can pass make [loadString] throw. *)
Lemma loadString_too_long addr len st :
  in_bounds (Z.of_nat (length (memory (core st)))) addr len = true ->
  arguments_max st < len ->
  loadString addr len st = (Throw RangeError, st).
Proof.
  intros H Hmax. unfold loadString.
  erewrite bindM_ok; [|unfold new_Uint8Array; by rewrite H].
  cbn [byteLength]. by rewrite (proj2 (Z.leb_gt _ _) Hmax).
Qed.

(** What [pushString] does with a string that fits: the bytes are stored at
    [here() + PAD_OFFSET], that address and the length are pushed. *)
Lemma pushString_spec (s : JS.string) offset st :
  scratch_fits s st ->
  let addr := dp (core st) + PAD_OFFSET in
  WAForth.pushString s offset st
  = (Ok (addr + PAD_OFFSET),
     set_stack (Z.of_nat (length s) :: addr :: stack (core st))
       (set_memory
          (list_inserts (Z.to_nat addr) (map ToUint8 s) (memory (core st)))
          st)).
Proof.
  intros (H0 & H1 & H2). cbv zeta. unfold WAForth.pushString.
  erewrite bindM_ok; [|reflexivity].
  erewrite bindM_ok; [|by apply saveString_spec].
  unfold bindM, WAForth.push, WAForth.exports_push, ret.
  cbn [set_stack set_memory core stack memory table dp buffer console].
  rewrite !ToInt32_small by lia. reflexivity.
Qed.

Lemma bytes_at_written (s : JS.string) addr st stk :
  0 <= addr ->
  addr + Z.of_nat (length s) <= Z.of_nat (length (memory (core st))) ->
  bytes_at addr (Z.of_nat (length s))
    (set_stack stk
       (set_memory
          (list_inserts (Z.to_nat addr) (map ToUint8 s) (memory (core st)))
          st))
  = map ToUint8 s.
Proof.
  intros H0 H1. unfold bytes_at, view_elements.
  cbn [byteOffset byteLength set_stack set_memory core memory].
  rewrite Nat2Z.id. rewrite <- (length_map ToUint8 s) at 1.
  apply take_drop_inserts. rewrite length_map. lia.
Qed.

(** Two pops in a row take the two top cells. *)
Lemma pop_pop {A} (k : Z -> Z -> M A) a b rest st :
  stack (core st) = a :: b :: rest ->
  (let* x := WAForth.pop in let* y := WAForth.pop in k x y) st
  = k a b (set_stack rest st).
Proof.
  intros Hs.
  erewrite bindM_ok;
    [|unfold WAForth.pop, WAForth.exports_pop; by rewrite Hs].
  by erewrite bindM_ok; [|reflexivity].
Qed.

Lemma popString_spec len addr rest st :
  stack (core st) = len :: addr :: rest ->
  in_bounds (Z.of_nat (length (memory (core st)))) addr len = true ->
  len <= arguments_max st ->
  WAForth.popString st = (Ok (bytes_at addr len st), set_stack rest st).
Proof.
  intros Hs Hb Hmax. unfold WAForth.popString.
  rewrite (pop_pop _ _ _ _ _ Hs). by rewrite loadString_spec.
Qed.

(** A code unit above 255 does not survive: U+0100, one code unit of value
    256, fits the scratch space, is stored as the byte 0 and comes back as
    the string of the one code unit 0. *)
Lemma pushString_popString_truncates :
  is_string [256]
  /\ scratch_fits [256] machine
  /\ fst ((WAForth.pushString [256] 0 ;; WAForth.popString) machine) = Ok [0]
  /\ fst ((WAForth.pushString [256] 0 ;; WAForth.popString) machine)
     <> Ok [256].
Proof.
  split; [|split; [|split]].
  - constructor; [unfold is_code_unit; lia|constructor].
  - unfold scratch_fits, PAD_OFFSET. simpl. lia.
  - reflexivity.
  - discriminate.
Qed.

(** A string longer than the engine lets [apply] pass is stored by
    [pushString], and [popString] throws on it with the two cells gone. *)
Lemma pushString_popString_too_long (s : JS.string) (st : State) :
  scratch_fits s st ->
  arguments_max st < Z.of_nat (length s) ->
  fst ((WAForth.pushString s 0 ;; WAForth.popString) st) = Throw RangeError.
Proof.
  intros Hfit Hmax. pose proof Hfit as (H0 & H1 & H2).
  rewrite (bindM_ok _ _ _ _ _ (pushString_spec s 0 st Hfit)).
  unfold WAForth.popString. erewrite pop_pop; [|reflexivity].
  rewrite loadString_too_long; [done| |done].
  cbn [set_stack set_memory core memory]. rewrite length_inserts.
  apply in_bounds_true; lia.
Qed.

(** C3, as the code has it. For every string whose code units are all below
    256, that fits the scratch space and that has no more code units than
    the engine lets [apply] pass, [pushString s] followed at once by
    [popString()] returns exactly [s]; the stack is as it was and of the
    memory only the scratch region has changed. *)
Theorem pushString_popString_roundtrip (s : JS.string) (st : State) :
  is_byte_string s ->
  scratch_fits s st ->
  Z.of_nat (length s) <= arguments_max st ->
  (WAForth.pushString s 0 ;; WAForth.popString) st
  = (Ok s,
     set_memory
       (list_inserts (Z.to_nat (dp (core st) + PAD_OFFSET)) s
          (memory (core st))) st).
Proof.
  intros Hs Hfit Hmax. pose proof Hfit as (H0 & H1 & H2).
  rewrite (bindM_ok _ _ _ _ _ (pushString_spec s 0 st Hfit)).
  erewrite popString_spec; [|reflexivity| |done].
  - rewrite bytes_at_written by lia.
    rewrite map_ToUint8_byte_string by done. reflexivity.
  - cbn [set_stack set_memory core memory]. rewrite length_inserts.
    apply in_bounds_true; lia.
Qed.

Lemma pushString_popString_roundtrip_witness :
  is_byte_string [65; 66]
  /\ scratch_fits [65; 66] machine
  /\ Z.of_nat (length [65; 66]) <= arguments_max machine
  /\ (WAForth.pushString [65; 66] 0 ;; WAForth.popString) machine
     = (Ok [65; 66],
        set_memory
          (list_inserts (Z.to_nat (dp (core machine) + PAD_OFFSET)) [65; 66]
             (memory (core machine))) machine).
Proof.
  assert (Hs : is_byte_string [65; 66]).
  { constructor; [lia|]. constructor; [lia|]. constructor. }
  assert (Hf : scratch_fits [65; 66] machine)
    by (unfold scratch_fits, PAD_OFFSET; simpl; lia).
  assert (Hm : Z.of_nat (length [65; 66]) <= arguments_max machine)
    by (simpl; lia).
  split; [exact Hs|]. split; [exact Hf|]. split; [exact Hm|].
  exact (pushString_popString_roundtrip [65; 66] machine Hs Hf Hm).
Defined.

(** Two strings pushed one after the other land at the same address: after
    [pushString("AB")] and [pushString("CD")] both address cells hold 416,
    the two regions are the same two bytes, and both strings read back as
    "CD". *)
Lemma pushString_twice_same_region :
  let st2 :=
    snd ((WAForth.pushString [65; 66] 0 ;; WAForth.pushString [67; 68] 0)
           machine) in
  [65; 66] <> [67; 68]
  /\ stack (core st2) = [2; 416; 2; 416]
  /\ regions_overlap 416 2 416 2
  /\ fst ((let* b := WAForth.popString in
           let* a := WAForth.popString in
           ret (a, b)) st2)
     = Ok ([67; 68], [67; 68]).
Proof.
  cbv zeta. split; [discriminate|]. split; [reflexivity|].
  split; [|reflexivity]. exists 416. lia.
Qed.

(** C9, as the code has it. Each [pushString] call takes its address from
    the high-water mark of the state it runs on, [here() + PAD_OFFSET], and
    keeps none from an earlier call: whatever the core does between two
    calls, the second one stores its string at the mark it finds plus
    [PAD_OFFSET]. [pushString] itself does not move the mark, so when the
    mark is where it was, as for two consecutive calls, the second string is
    written where the first one starts and is what the region holds
    afterwards. *)
Theorem pushString_twice_recomputes (s1 s2 : JS.string)
    (between : State -> State) (st : State) :
  scratch_fits s1 st ->
  scratch_fits s2 (between (snd (WAForth.pushString s1 0 st))) ->
  let st1 := snd (WAForth.pushString s1 0 st) in
  let st2 := snd (WAForth.pushString s2 0 (between st1)) in
  stack (core st1)
  = Z.of_nat (length s1) :: dp (core st) + PAD_OFFSET :: stack (core st)
  /\ dp (core st1) = dp (core st)
  /\ stack (core st2)
     = Z.of_nat (length s2) :: dp (core (between st1)) + PAD_OFFSET
         :: stack (core (between st1))
  /\ bytes_at (dp (core (between st1)) + PAD_OFFSET)
       (Z.of_nat (length s2)) st2
     = map ToUint8 s2
  /\ (dp (core (between st1)) = dp (core st) ->
      bytes_at (dp (core st) + PAD_OFFSET) (Z.of_nat (length s2)) st2
      = map ToUint8 s2).
Proof.
  intros Hf1. cbv zeta.
  rewrite (pushString_spec s1 0 st Hf1). cbn [snd].
  set (st1 := between _). intros Hf2.
  rewrite (pushString_spec s2 0 st1 Hf2). cbn [snd].
  destruct Hf2 as (H0 & H1 & H2).
  assert (Hread :
    bytes_at (dp (core st1) + PAD_OFFSET) (Z.of_nat (length s2))
      (set_stack
         (Z.of_nat (length s2) :: dp (core st1) + PAD_OFFSET
            :: stack (core st1))
         (set_memory
            (list_inserts (Z.to_nat (dp (core st1) + PAD_OFFSET))
               (map ToUint8 s2) (memory (core st1))) st1))
    = map ToUint8 s2) by (apply bytes_at_written; lia).
  split; [reflexivity|]. split; [reflexivity|]. split; [reflexivity|].
  split; [exact Hread|]. intros <-. exact Hread.
Qed.

Lemma pushString_twice_recomputes_witness :
  scratch_fits [65; 66] machine
  /\ scratch_fits [67; 68] (snd (WAForth.pushString [65; 66] 0 machine))
  /\ bytes_at (dp (core machine) + PAD_OFFSET) 2
       (snd (WAForth.pushString [67; 68] 0
               (snd (WAForth.pushString [65; 66] 0 machine))))
     = [67; 68].
Proof.
  assert (H1 : scratch_fits [65; 66] machine)
    by (unfold scratch_fits, PAD_OFFSET; simpl; lia).
  assert (H2 : scratch_fits [67; 68]
                 (snd (WAForth.pushString [65; 66] 0 machine)))
    by (unfold scratch_fits, PAD_OFFSET; simpl; lia).
  split; [exact H1|]. split; [exact H2|].
  exact (proj1 (proj2 (proj2 (proj2
    (pushString_twice_recomputes [65; 66] [67; 68] (fun st => st) machine
       H1 H2))))).
Defined.

(** ** The dispatcher *)

(** Once the name has been read, [call] goes by what the name resolves
    to. *)
Lemma call_resolved (function_member : Handler -> JS.string -> shell.Member)
    (fns : gmap JS.string Handler) (len addr : Z) (rest : list Z)
    (st : State) :
  stack (core st) = len :: addr :: rest ->
  in_bounds (Z.of_nat (length (memory (core st)))) addr len = true ->
  len <= arguments_max st ->
  shell.call function_member fns st
  = match shell.property function_member fns (bytes_at addr len st) with
    | shell.Falsy => console_error (LogUnbound (bytes_at addr len st))
    | shell.Bound fn => fn ;; ret tt
    | shell.Builtin completion => fun st' => (completion, st')
    | shell.NotCallable => throw TypeError
    | shell.Raises e => throw e
    end (set_stack rest st).
Proof.
  intros Hs Hb Hmax. unfold shell.call.
  rewrite (pop_pop _ _ _ _ _ Hs).
  by erewrite bindM_ok; [|by apply loadString_spec].
Qed.

(** A name that is not bound, is not ["__proto__"] and is no member of
    [Object.prototype], on a [#fns] whose prototype has not been replaced:
    the two cells are popped, the name is logged as unbound, and nothing
    else changes. *)
Lemma call_unbound_logged
    (function_member : Handler -> JS.string -> shell.Member)
    (fns : gmap JS.string Handler) (len addr : Z) (rest : list Z)
    (st : State) :
  stack (core st) = len :: addr :: rest ->
  in_bounds (Z.of_nat (length (memory (core st)))) addr len = true ->
  len <= arguments_max st ->
  fns !! bytes_at addr len st = None ->
  bytes_at addr len st <> Literal.name_proto ->
  fns !! Literal.name_proto = None ->
  shell.Object_prototype (bytes_at addr len st) = shell.Falsy ->
  shell.call function_member fns st
  = (Ok tt,
     set_console (console st ++ [LogUnbound (bytes_at addr len st)])
       (set_stack rest st)).
Proof.
  intros Hs Hb Hmax Hf Hn Hp Ho.
  rewrite (call_resolved _ _ _ _ _ _ Hs Hb Hmax).
  unfold shell.property. unfold Handler, JS.string in *.
  rewrite Hf, Hp, Ho. by rewrite bool_decide_eq_false_2.
Qed.

(** C6. A call of a name that no handler is bound to, but that [#fns]
    inherits from [Object.prototype], is not logged as unbound: with
    ["toString"] the inherited function is called and the call returns with
    nothing logged; with ["__proto__"], and with ["valueOf"], a [TypeError]
    is thrown into the core. *)
Theorem call_unbound_inherited_name
    (function_member : Handler -> JS.string -> shell.Member) :
  let called nm :=
    (WAForth.pushString nm 0 ;; shell.call function_member ∅) machine in
  fst (called Literal.name_toString) = Ok tt
  /\ console (snd (called Literal.name_toString)) = []
  /\ fst (called Literal.name_proto) = Throw TypeError
  /\ fst (called Literal.name_valueOf) = Throw TypeError.
Proof. cbv zeta. repeat split; vm_compute; reflexivity. Qed.

(** A bound name is dispatched to its handler, which finds the stack with the
    name popped. *)
Lemma call_bound (function_member : Handler -> JS.string -> shell.Member)
    (fns : gmap JS.string Handler) (fn : Handler)
    (len addr : Z) (rest : list Z) (st : State) :
  stack (core st) = len :: addr :: rest ->
  in_bounds (Z.of_nat (length (memory (core st)))) addr len = true ->
  len <= arguments_max st ->
  fns !! bytes_at addr len st = Some fn ->
  shell.call function_member fns st = (fn ;; ret tt) (set_stack rest st).
Proof.
  intros Hs Hb Hmax Hf.
  rewrite (call_resolved _ _ _ _ _ _ Hs Hb Hmax).
  unfold shell.property. unfold Handler, JS.string in *. by rewrite Hf.
Qed.

(** With 21 on the stack, a call of the name "double" bound to [double]
    leaves 42. *)
Example call_double
    (function_member : Handler -> JS.string -> shell.Member) :
  stack (core (snd
    ((WAForth.pushString double_name 0 ;;
      shell.call function_member (WAForth.bind double_name double ∅))
       (set_stack [21] machine))))
  = [42].
Proof. vm_compute. reflexivity. Qed.

(** ** Asynchronous handlers *)

Lemma finally_block (exports_interpret : M Z) cbxt st :
  - 2 ^ 31 <= cbxt < 2 ^ 31 ->
  (WAForth.push cbxt ;;
   WAForth.interpret exports_interpret EXECUTE ;; ret tt) st
  = (Ok tt,
     snd (exports_interpret
            (set_buffer (buffer st ++ reverse (TextEncoder_encode EXECUTE))
               (set_stack (cbxt :: stack (core st)) st)))).
Proof.
  intros Hc.
  erewrite bindM_ok;
    [|unfold WAForth.push, WAForth.exports_push;
      by rewrite ToInt32_small by lia].
  unfold bindM. rewrite interpret_unfold.
  cbn [buffer set_stack].
  by destruct (exports_interpret _) as [[r|e] st2].
Qed.

Lemma resumption_unfold (exports_interpret : M Z) cbxt (awaited : M unit) st :
  - 2 ^ 31 <= cbxt < 2 ^ 31 ->
  WAForth.resumption exports_interpret cbxt awaited st
  = match awaited st with
    | (Ok _, st1) =>
      (Ok tt, snd (exports_interpret (resumed cbxt (-1) st1)))
    | (Throw e, st1) =>
      (Ok tt, snd (exports_interpret (resumed cbxt 0 (logged e st1))))
    end.
Proof.
  intros Hc.
  unfold WAForth.resumption, try_catch_finally, try_catch.
  destruct (awaited st) as [[[]|e] st1] eqn:Ha.
  - rewrite (bindM_ok _ _ _ _ _ Ha).
    unfold WAForth.push at 1, WAForth.exports_push at 1.
    by rewrite finally_block.
  - rewrite (bindM_throw _ _ _ _ _ Ha).
    unfold bindM at 1, console_error, array_push.
    unfold WAForth.push at 1, WAForth.exports_push at 1.
    by rewrite finally_block.
Qed.

(** C4. The handler [bindAsync name fn] registers, called with the token
    [cbxt] on top of the stack, pops the token and then starts [fn], which
    sees the stack without it. When [fn] returns a promise the handler
    suspends; once the promise has settled, [-1] is pushed if it was
    fulfilled, and if it was rejected the reason is logged and [0] is pushed;
    either way the token is pushed next, once, and the core is entered
    through [interpret("EXECUTE")], whose own signals are discarded. When
    [fn] throws before it returns, the failure path runs at once. *)
Theorem bindAsync_resumes_once (exports_interpret : M Z)
    (name : JS.string) (fn : M Promise) (fns : gmap JS.string Handler)
    (cbxt : Z) (rest : list Z) (st : State) :
  stack (core st) = cbxt :: rest ->
  - 2 ^ 31 <= cbxt < 2 ^ 31 ->
  WAForth.bindAsync exports_interpret name fn fns !! name
  = Some (WAForth.async_handler exports_interpret fn)
  /\ -1 <> 0
  /\ match fn (set_stack rest st) with
     | (Ok p, st1) =>
       exists k,
         WAForth.async_handler exports_interpret fn st
         = (Ok (APromise (Pending k)), st1)
         /\ forall st',
             k st'
             = match await p st' with
               | (Ok _, st2) =>
                 (Ok tt, snd (exports_interpret (resumed cbxt (-1) st2)))
               | (Throw e, st2) =>
                 (Ok tt,
                  snd (exports_interpret (resumed cbxt 0 (logged e st2))))
               end
     | (Throw e, st1) =>
       WAForth.async_handler exports_interpret fn st
       = (Ok (APromise Fulfilled),
          snd (exports_interpret (resumed cbxt 0 (logged e st1))))
     end.
Proof.
  intros Hs Hc. split; [apply lookup_insert_eq|]. split; [done|].
  unfold WAForth.async_handler, WAForth.pop, WAForth.exports_pop.
  rewrite Hs.
  destruct (fn (set_stack rest st)) as [[p|e] st1].
  - eexists. split; [reflexivity|].
    intros st'. by apply resumption_unfold.
  - rewrite resumption_unfold by done. reflexivity.
Qed.

Lemma bindAsync_resumes_once_witness :
  stack (core (set_stack [7; 9] machine)) = [7; 9]
  /\ - 2 ^ 31 <= 7 < 2 ^ 31
  /\ WAForth.bindAsync idle [100] immediate ∅ !! [100]
     = Some (WAForth.async_handler idle immediate).
Proof.
  assert (Hc : - 2 ^ 31 <= 7 < 2 ^ 31) by lia.
  split; [reflexivity|]. split; [exact Hc|].
  exact (proj1 (bindAsync_resumes_once idle [100] immediate ∅ 7 [9]
                  (set_stack [7; 9] machine) eq_refl Hc)).
Defined.

(* ===================================================================== *)
(** * Further properties *)
(* ===================================================================== *)

(** ** The program store *)

Section ProgramStore.

Import Programs.

Implicit Types (nm text : JS.string) (l : list Program) (w : Store).

Lemma getProgram_savePrograms nm w :
  getProgram nm (savePrograms w) = getProgram nm w.
Proof. unfold getProgram, savePrograms. by destruct (full w). Qed.

Lemma find_name_Some nm l p :
  find (fun e => bool_decide (name e = nm)) l = Some p -> name p = nm.
Proof.
  intros H. apply find_some in H as [_ H]. by apply bool_decide_eq_true in H.
Qed.

Lemma find_assign_program nm text l :
  find (fun e => bool_decide (name e = nm)) (assign_program nm text l)
  = match find (fun e => bool_decide (name e = nm)) l with
    | Some p =>
      Some {| name := name p; program := text; isExample := isExample p |}
    | None => None
    end.
Proof.
  induction l as [|p l IH]; [done|].
  simpl. destruct (bool_decide (name p = nm)) eqn:Hp; simpl.
  - by rewrite Hp.
  - by rewrite Hp.
Qed.

Lemma find_assign_program_ne nm nm' text l :
  nm' <> nm ->
  find (fun e => bool_decide (name e = nm')) (assign_program nm text l)
  = find (fun e => bool_decide (name e = nm')) l.
Proof.
  intros Hne. induction l as [|p l IH]; [done|].
  simpl. destruct (bool_decide (name p = nm)) eqn:Hp; simpl.
  - apply bool_decide_eq_true in Hp.
    rewrite (bool_decide_eq_false_2 (name p = nm')) by congruence.
    done.
  - by rewrite IH.
Qed.

Lemma length_assign_program nm text l :
  length (assign_program nm text l) = length l.
Proof.
  induction l as [|p l IH]; [done|].
  simpl. destruct (bool_decide _); simpl; congruence.
Qed.

Lemma find_snoc {A} (f : A -> bool) (l : list A) (x : A) :
  find f (l ++ [x])
  = match find f l with
    | Some y => Some y
    | None => if f x then Some x else None
    end.
Proof.
  induction l as [|y l IH]; simpl; [done|]. by destruct (f y).
Qed.

Lemma find_app_None {A} (f : A -> bool) (l k : list A) :
  find f l = None -> find f (l ++ k) = find f k.
Proof.
  induction l as [|y l IH]; simpl; [done|]. by destruct (f y).
Qed.

Lemma find_app_Some {A} (f : A -> bool) (l k : list A) x :
  find f l = Some x -> find f (l ++ k) = Some x.
Proof.
  induction l as [|y l IH]; simpl; [done|]. by destruct (f y).
Qed.

(** Filtering keeps the first hit of a search when the hit passes the
    filter. *)
Lemma find_filter_Some {A} (f : A -> bool) (P : A -> Prop)
    `{!forall x, Decision (P x)} (l : list A) x :
  find f l = Some x -> P x -> find f (filter P l) = Some x.
Proof.
  intros Hf HP. induction l as [|y l IH]; [done|].
  simpl in Hf. destruct (f y) eqn:Hy.
  - injection Hf as ->. rewrite filter_cons_True by done. simpl. by rewrite Hy.
  - destruct (decide (P y)).
    + rewrite filter_cons_True by done. simpl. rewrite Hy. by apply IH.
    + rewrite filter_cons_False by done. by apply IH.
Qed.

Lemma find_filter_name_ne nm nm' l :
  nm' <> nm ->
  find (fun e => bool_decide (name e = nm'))
    (filter (fun p => name p <> nm) l)
  = find (fun e => bool_decide (name e = nm')) l.
Proof.
  intros Hne. induction l as [|p l IH]; [done|].
  destruct (decide (name p <> nm)) as [Hp|Hp].
  - rewrite filter_cons_True by done. simpl. by rewrite IH.
  - rewrite filter_cons_False by done. simpl.
    rewrite bool_decide_eq_false_2; [done|].
    intros Hn. apply Hp. congruence.
Qed.

Lemma find_filter_name_eq nm l :
  find (fun e => bool_decide (name e = nm))
    (filter (fun p => name p <> nm) l)
  = None.
Proof.
  induction l as [|p l IH]; [done|].
  destruct (decide (name p <> nm)) as [Hp|Hp].
  - rewrite filter_cons_True by done. simpl.
    by rewrite bool_decide_eq_false_2.
  - by rewrite filter_cons_False.
Qed.

(** The list after [saveProgram], and the stored item after it. *)
Lemma programs_saveProgram nm text w :
  programs (snd (saveProgram nm text w))
  = match getProgram nm w with
    | Some _ => assign_program nm text (programs w)
    | None =>
      array_push (programs w)
        {| name := nm; isExample := false; program := text |}
    end.
Proof.
  unfold saveProgram, savePrograms, set_programs.
  destruct (getProgram nm w); cbn [snd full]; by destruct (full w).
Qed.

Lemma item_saveProgram nm text w :
  item (snd (saveProgram nm text w))
  = if full w then item w
    else Stored (filter (fun p => isExample p = false)
                   (programs (snd (saveProgram nm text w)))).
Proof.
  unfold saveProgram, savePrograms, set_programs.
  destruct (getProgram nm w); cbn [snd full]; by destruct (full w).
Qed.

(** X1. After [saveProgram(name, program)], [getProgram(name)] finds a
    program of that name with that text; it is an example exactly when the
    program found under the name before was one. This holds whether or not
    the storage took the write. *)
Theorem getProgram_saveProgram nm text w :
  exists p,
    getProgram nm (snd (saveProgram nm text w)) = Some p
    /\ name p = nm
    /\ program p = text
    /\ isExample p = match getProgram nm w with
                     | Some q => isExample q
                     | None => false
                     end.
Proof.
  unfold saveProgram. destruct (getProgram nm w) as [q|] eqn:Hq.
  - cbn [snd]. rewrite getProgram_savePrograms.
    unfold getProgram, listPrograms, set_programs in *. cbn [programs].
    rewrite find_assign_program, Hq. eexists. split; [reflexivity|].
    cbn [name program isExample]. split; [|done].
    by apply (find_name_Some _ (programs w)).
  - cbn [snd]. rewrite getProgram_savePrograms.
    unfold getProgram, listPrograms, set_programs, array_push in *.
    cbn [programs]. rewrite find_snoc, Hq. cbn [name].
    rewrite bool_decide_eq_true_2 by done. eexists. by split.
Qed.

(** X2. [saveProgram] returns [true] exactly when no program had the name,
    and then the list is one longer; otherwise the list keeps its length. *)
Theorem saveProgram_isNew nm text w :
  (fst (saveProgram nm text w) = true <-> getProgram nm w = None)
  /\ length (programs (snd (saveProgram nm text w)))
     = (length (programs w)
        + if fst (saveProgram nm text w) then 1 else 0)%nat.
Proof.
  unfold saveProgram. destruct (getProgram nm w) as [q|] eqn:Hq; cbn [fst snd].
  - split; [split; discriminate|].
    unfold savePrograms, set_programs. destruct (full w); cbn [programs full];
      rewrite length_assign_program; lia.
  - split; [done|].
    unfold savePrograms, set_programs, array_push.
    destruct (full w); cbn [programs full]; rewrite length_app; simpl; lia.
Qed.

(** X3. [saveProgram] under one name leaves what [getProgram] finds under
    every other name as it was. *)
Theorem getProgram_saveProgram_other nm nm' text w :
  nm' <> nm ->
  getProgram nm' (snd (saveProgram nm text w)) = getProgram nm' w.
Proof.
  intros Hne. unfold saveProgram.
  destruct (getProgram nm w) as [q|] eqn:Hq; cbn [snd];
    rewrite getProgram_savePrograms;
    unfold getProgram, listPrograms, set_programs, array_push; cbn [programs].
  - by apply find_assign_program_ne.
  - rewrite find_snoc. destruct (find _ (programs w)); [done|].
    cbn [name]. by rewrite bool_decide_eq_false_2 by congruence.
Qed.

Lemma getProgram_saveProgram_other_witness :
  [66] <> [65]
  /\ getProgram [66] (snd (saveProgram [65] [49]
       {| programs := examples; item := Absent; full := false;
          alerts := 0 |}))
     = getProgram [66]
         {| programs := examples; item := Absent; full := false;
            alerts := 0 |}.
Proof.
  assert (H : [66] <> [65] :> JS.string) by discriminate.
  split; [exact H|].
  exact (getProgram_saveProgram_other [65] [66] [49] _ H).
Defined.

(** X4. After [deleteProgram(name)] no program has the name, example or not,
    and what [getProgram] finds under every other name is as it was. *)
Theorem getProgram_deleteProgram nm w :
  getProgram nm (deleteProgram nm w) = None
  /\ forall nm', nm' <> nm ->
       getProgram nm' (deleteProgram nm w) = getProgram nm' w.
Proof.
  unfold deleteProgram. split.
  - rewrite getProgram_savePrograms.
    unfold getProgram, listPrograms, set_programs. cbn [programs].
    apply find_filter_name_eq.
  - intros nm' Hne. rewrite getProgram_savePrograms.
    unfold getProgram, listPrograms, set_programs. cbn [programs].
    by apply find_filter_name_ne.
Qed.

(** X5. What [saveProgram] and [deleteProgram] leave in the storage: when
    [setItem] goes through, exactly the programs of the list that are not
    examples, in order; when it throws, the item as it was, with the user
    alerted once. *)
Theorem stored_item_after_change nm text w :
  let after w' :=
    if full w
    then item w' = item w /\ alerts w' = S (alerts w)
    else item w'
         = Stored (filter (fun p => isExample p = false) (programs w'))
         /\ alerts w' = alerts w in
  after (snd (saveProgram nm text w)) /\ after (deleteProgram nm w).
Proof.
  cbv zeta. unfold saveProgram, deleteProgram, savePrograms, set_programs.
  destruct (getProgram nm w); cbn [snd full programs item alerts];
    destruct (full w); cbn [programs item alerts]; done.
Qed.

(** X6. A program saved under a name that no example has, and that was not
    flagged as an example before, is found again with its text after the
    page is loaded anew, provided the storage took the write. *)
Theorem getProgram_reload_saved nm text w :
  full w = false ->
  find (fun e => bool_decide (name e = nm)) examples = None ->
  (forall q, getProgram nm w = Some q -> isExample q = false) ->
  getProgram nm (reload (snd (saveProgram nm text w)))
  = Some {| name := nm; program := text; isExample := false |}.
Proof.
  intros Hfull Hex Hq.
  unfold reload, getProgram at 1, listPrograms, set_programs. cbn [programs].
  rewrite item_saveProgram, Hfull. unfold loaded.
  rewrite find_app_None by done. rewrite programs_saveProgram.
  unfold getProgram, listPrograms in Hq |- *.
  destruct (find _ (programs w)) as [q|] eqn:Hfind.
  - apply find_filter_Some; [|reflexivity].
    rewrite find_assign_program, Hfind.
    rewrite (find_name_Some _ _ _ Hfind), (Hq q) by done. reflexivity.
  - apply find_filter_Some; [|reflexivity].
    unfold array_push. rewrite find_snoc, Hfind. cbn [name].
    by rewrite bool_decide_eq_true_2.
Qed.

Lemma getProgram_reload_saved_witness :
  getProgram [65] (reload (snd (saveProgram [65] [49]
    {| programs := examples; item := Absent; full := false; alerts := 0 |})))
  = Some {| name := [65]; program := [49]; isExample := false |}.
Proof.
  apply getProgram_reload_saved.
  - reflexivity.
  - reflexivity.
  - intros q Hq. discriminate Hq.
Defined.

(** X7. Saving under the name of a built-in example never changes that
    example for the next visit: after the page is loaded anew the name finds
    the example with its original text, whatever was saved and whatever the
    store held. *)
Theorem getProgram_reload_example nm text w e :
  find (fun e => bool_decide (name e = nm)) examples = Some e ->
  getProgram nm (reload (snd (saveProgram nm text w))) = Some e.
Proof.
  intros He. unfold reload, getProgram, listPrograms, set_programs, loaded.
  cbn [programs]. by apply find_app_Some.
Qed.

Lemma getProgram_reload_example_witness :
  exists e,
    name e = DEFAULT_PROGRAM
    /\ isExample e = true
    /\ getProgram (DEFAULT_PROGRAM)
         (reload (snd (saveProgram (DEFAULT_PROGRAM) [49]
            {| programs := examples; item := Absent; full := false;
               alerts := 0 |})))
       = Some e.
Proof.
  eexists. split; [|split]; [| |apply getProgram_reload_example].
  3: reflexivity. all: reflexivity.
Defined.

End ProgramStore.

(** ** Output and input through the terminal *)

Section Terminal.

Import terminal.

Lemma emit_all_app onEmit (cs cs' : list Z) e :
  emit_all onEmit (cs ++ cs') e = emit_all onEmit cs' (emit_all onEmit cs e).
Proof. revert e. induction cs as [|c cs IH]; intros e; simpl; [done|apply IH]. Qed.

Lemma join_snoc (parts : list JS.string) (c : JS.string) :
  join (parts ++ [c]) = join parts ++ c.
Proof. unfold join. rewrite concat_app. simpl. by rewrite app_nil_r. Qed.

(** Characters other than the line feed gather in the buffer and print
    nothing. *)
Lemma emit_all_pending (cs : list Z) e :
  Forall (fun c => ~ is_line_feed c) cs ->
  printed (emit_all (Some default_onEmit) cs e) = printed e
  /\ join (line (emit_all (Some default_onEmit) cs e))
     = join (line e) ++ map (fun c => c mod 65536) cs.
Proof.
  intros H. revert e. induction H as [|c cs Hc _ IH]; intros e.
  - simpl. by rewrite app_nil_r.
  - cbn [emit_all emit]. unfold default_onEmit at 2 4, fromCharCode.
    rewrite bool_decide_eq_false_2
      by (intros [= Heq]; by apply Hc).
    destruct (IH {| line := array_push (line e) [c mod 65536];
                    printed := printed e |}) as [IH1 IH2].
    split; [exact IH1|].
    rewrite IH2. cbn [line]. unfold array_push.
    rewrite join_snoc. by rewrite <- app_assoc.
Qed.

Lemma emit_line_feed c e :
  is_line_feed c ->
  emit (Some default_onEmit) c e
  = {| line := []; printed := printed e ++ [join (line e)] |}.
Proof.
  intros Hc. unfold emit, default_onEmit, fromCharCode, array_push.
  unfold is_line_feed in Hc. rewrite Hc. by rewrite bool_decide_eq_true_2.
Qed.

(** X8. With the default [onEmit], characters are printed a line at a time:
    when the core emits lines, each ended by a line feed, on an empty
    buffer, [console.log] receives exactly these lines, in order and without
    their line feeds, and the buffer is empty again. *)
Theorem default_onEmit_prints_lines (ls : list (list Z)) e :
  Forall (Forall (fun c => ~ is_line_feed c)) ls ->
  line e = [] ->
  emit_all (Some default_onEmit) (concat (map (fun l => l ++ [10]) ls)) e
  = {| line := [];
       printed := printed e ++ map (map (fun c => c mod 65536)) ls |}.
Proof.
  intros H. revert e. induction H as [|l ls Hl _ IH]; intros e He.
  - simpl. rewrite app_nil_r. destruct e. simpl in He. by subst.
  - cbn [map concat]. rewrite emit_all_app, emit_all_app.
    destruct (emit_all_pending l e Hl) as [H1 H2].
    cbn [emit_all]. rewrite emit_line_feed by reflexivity.
    rewrite IH by reflexivity. cbn [printed].
    rewrite H1, H2, He. cbn [join concat app].
    by rewrite <- app_assoc.
Qed.

Lemma default_onEmit_prints_lines_witness :
  emit_all (Some default_onEmit) [111; 107; 10; 10; 52; 50; 10]
    {| line := []; printed := [] |}
  = {| line := []; printed := [[111; 107]; []; [52; 50]] |}.
Proof.
  apply (default_onEmit_prints_lines [[111; 107]; []; [52; 50]]
           {| line := []; printed := [] |}).
  - unfold is_line_feed.
    repeat (constructor; [repeat (constructor; [discriminate|])|]);
      constructor.
  - reflexivity.
Defined.

(** X9. Output that is not ended by a line feed is never printed by the
    default [onEmit]: it stays in the buffer, behind what was there. *)
Theorem default_onEmit_holds_unfinished_line (cs : list Z) e :
  Forall (fun c => ~ is_line_feed c) cs ->
  printed (emit_all (Some default_onEmit) cs e) = printed e
  /\ join (line (emit_all (Some default_onEmit) cs e))
     = join (line e) ++ map (fun c => c mod 65536) cs.
Proof. apply emit_all_pending. Qed.

Lemma default_onEmit_holds_unfinished_line_witness :
  printed (emit_all (Some default_onEmit) [111; 107]
             {| line := []; printed := [] |}) = []
  /\ join (line (emit_all (Some default_onEmit) [111; 107]
                   {| line := []; printed := [] |}))
     = [111; 107].
Proof.
  apply (default_onEmit_holds_unfinished_line [111; 107]
           {| line := []; printed := [] |}).
  unfold is_line_feed.
  constructor; [discriminate|]. constructor; [discriminate|]. constructor.
Defined.

Lemma key_no_answers (skipped rest : list (option JS.string)) :
  Forall is_no_answer skipped -> key (skipped ++ rest) = key rest.
Proof.
  induction 1 as [|a skipped [-> | ->] _ IH]; simpl; done.
Qed.

(** X10. [key] asks again on every cancelled or empty answer and returns the
    first code unit of the first answer that is not empty, having prompted
    no further; on answers that are all cancelled or empty it is still
    asking. *)
Theorem key_first_answer (skipped rest : list (option JS.string))
    (c : Z) (s : JS.string) :
  Forall is_no_answer skipped ->
  key (skipped ++ Some (c :: s) :: rest) = Some (c, rest)
  /\ key skipped = None.
Proof.
  intros H. split.
  - by rewrite key_no_answers.
  - rewrite <- (app_nil_r skipped). by rewrite key_no_answers.
Qed.

Lemma key_first_answer_witness :
  key ([None; Some []] ++ Some [97; 98] :: [Some [99]])
  = Some (97, [Some [99]])
  /\ key [None; Some []] = None.
Proof.
  apply key_first_answer.
  constructor; [by left|]. constructor; [by right|]. constructor.
Defined.

(** The body of [accept] is the loop of [saveString] on the cut answer. *)
Lemma accept_unfold answer p n st :
  accept answer p n st
  = (saveString (substring_to (default [] answer) n) p ;;
     ret (Z.of_nat (length (substring_to (default [] answer) n)))) st.
Proof.
  unfold accept, saveString, bindM.
  by destruct (new_Uint8Array _ _ st) as [[a|e] st1].
Qed.

(** Storing a string changes no byte outside its region. *)
Lemma list_inserts_outside (i : nat) (k l : list Z) (j : nat) :
  (j < i \/ i + length k <= j)%nat ->
  list_inserts i k l !! j = l !! j.
Proof.
  intros [H|H].
  - by apply list_lookup_inserts_lt.
  - by apply list_lookup_inserts_ge.
Qed.

(** X11. [accept(p, n)] stores the answer cut to [n] characters, one byte
    for each, from address [p] on, and returns how many it stored: never
    more than [n], and no byte outside the region is touched. A cancelled
    prompt stores nothing and returns 0. *)
Theorem accept_stores_at_most_n (answer : option JS.string) (p n : Z)
    (st : State) :
  let input := substring_to (default [] answer) n in
  let count := Z.of_nat (length input) in
  0 <= p ->
  p + count <= Z.of_nat (length (memory (core st))) ->
  exists st',
    accept answer p n st = (Ok count, st')
    /\ count <= Z.max n 0
    /\ (answer = None -> count = 0 /\ st' = st)
    /\ bytes_at p count st' = map ToUint8 input
    /\ length (memory (core st')) = length (memory (core st))
    /\ (forall j : nat,
          (Z.of_nat j < p \/ p + count <= Z.of_nat j) ->
          memory (core st') !! j = memory (core st) !! j)
    /\ table (core st') = table (core st)
    /\ stack (core st') = stack (core st).
Proof.
  cbv zeta. intros H0 H1. eexists. rewrite accept_unfold.
  erewrite bindM_ok; [|by apply saveString_spec].
  split; [reflexivity|]. split; [|split; [|split; [|split; [|split]]]].
  - unfold substring_to. rewrite length_take. lia.
  - intros ->. unfold substring_to. cbn [default from_option id].
    rewrite take_nil. cbn [length map list_inserts].
    split; [done|]. by rewrite set_memory_same.
  - apply (bytes_at_written _ _ st (stack (core st))); lia.
  - cbn [set_memory core memory]. apply length_inserts.
  - intros j Hj. cbn [set_memory core memory].
    apply list_inserts_outside. rewrite length_map. lia.
  - done.
Qed.

Lemma accept_stores_at_most_n_witness :
  exists st',
    accept (Some [104; 101; 108; 108; 111]) 32 3 machine = (Ok 3, st')
    /\ bytes_at 32 3 st' = [104; 101; 108].
Proof.
  destruct (accept_stores_at_most_n (Some [104; 101; 108; 108; 111]) 32 3
              machine) as (st' & H & _ & _ & Hb & _).
  - lia.
  - simpl. lia.
  - exists st'. split; [exact H|exact Hb].
Defined.

(** X12. [accept] does not clip the answer to the memory: when the region
    for the cut answer does not lie inside the memory it throws a
    [RangeError] and stores nothing. *)
Theorem accept_outside_memory (answer : option JS.string) (p n : Z)
    (st : State) :
  let count := Z.of_nat (length (substring_to (default [] answer) n)) in
  p < 0 \/ Z.of_nat (length (memory (core st))) < p + count ->
  accept answer p n st = (Throw RangeError, st).
Proof.
  cbv zeta. intros H. unfold accept.
  apply bindM_throw. unfold new_Uint8Array.
  replace (in_bounds _ _ _) with false; [done|].
  symmetry. unfold in_bounds.
  rewrite !andb_false_iff, !Z.leb_gt. lia.
Qed.

Lemma accept_outside_memory_witness :
  accept (Some [104; 101; 108; 108; 111]) 510 5 machine
  = (Throw RangeError, machine).
Proof.
  apply accept_outside_memory. right. simpl. lia.
Defined.

End Terminal.

(** ** More on the loader *)

(** X13. The copy taken of the blob on Safari changes nothing in what [load]
    does: with and without it the call has the same outcome and leaves the
    same state. *)
Theorem load_safari_copy_same (decode : list Z -> option CodeUnit)
    (offset len index : Z) (st : State) :
  shell.load true decode offset len index st
  = shell.load false decode offset len index st.
Proof.
  destruct (in_bounds (Z.of_nat (length (memory (core st)))) offset len)
    eqn:H.
  - by rewrite !load_unfold.
  - by rewrite !load_out_of_bounds.
Qed.

Lemma lookup_grown index (t : list (option funcref)) (j : nat) :
  (j < length t)%nat -> grown index t !! j = t !! j.
Proof.
  intros Hj. unfold grown. destruct (_ <=? index); [|done].
  by apply lookup_app_l.
Qed.

(** X14. [load] writes to the table only: the memory, the operand stack, the
    high-water mark and the input buffer are as before, and every slot the
    table had keeps its content, except the slot the loaded unit names,
    which then holds the entry point of the unit. *)
Theorem load_touches_only_the_table (isSafari : bool)
    (decode : list Z -> option CodeUnit) (offset len index : Z) (st : State) :
  let st' := snd (shell.load isSafari decode offset len index st) in
  memory (core st') = memory (core st)
  /\ stack (core st') = stack (core st)
  /\ dp (core st') = dp (core st)
  /\ buffer st' = buffer st
  /\ forall j : nat,
       (j < length (table (core st)))%nat ->
       table (core st') !! j = table (core st) !! j
       \/ exists u,
            decode (bytes_at offset len st) = Some u
            /\ unit_index u = Z.of_nat j
            /\ table (core st') !! j = Some (Some (unit_entry u)).
Proof.
  cbv zeta.
  destruct (in_bounds (Z.of_nat (length (memory (core st)))) offset len)
    eqn:H.
  - rewrite load_unfold by done. cbv zeta.
    destruct (decode (bytes_at offset len st)) as [u|] eqn:Hu.
    + destruct (_ && _) eqn:Hin; cbn [snd].
      * repeat split; try reflexivity. intros j Hj.
        cbn [set_table core table].
        destruct (decide (Z.to_nat (unit_index u) = j)) as [<-|Hne].
        -- right. exists u. apply andb_prop in Hin as [H0 H1].
           apply Z.leb_le in H0. apply Z.ltb_lt in H1.
           split; [done|]. split; [lia|].
           apply list_lookup_insert_eq. lia.
        -- left. rewrite list_lookup_insert_ne by done.
           by apply lookup_grown.
      * repeat split; try reflexivity. intros j Hj. left.
        cbn [set_console set_table core table]. by apply lookup_grown.
    + cbn [snd]. repeat split; try reflexivity. intros j Hj. left.
      cbn [set_console set_table core table]. by apply lookup_grown.
  - rewrite load_out_of_bounds by done. cbn [snd].
    repeat split; try reflexivity. intros j Hj. by left.
Qed.

(** X15. Whatever [load] calls are made, the table only ever doubles: its
    length after any run of calls is its length before times a power of
    two. *)
Theorem loads_length_doubles (isSafari : bool)
    (decode : list Z -> option CodeUnit) (calls : list (Z * Z * Z))
    (st : State) :
  exists k : nat,
    length (table (core (loads isSafari decode calls st)))
    = (length (table (core st)) * 2 ^ k)%nat.
Proof.
  revert st. induction calls as [|[[offset len] index] calls IH]; intros st.
  - exists 0%nat. simpl. lia.
  - simpl. destruct (IH (snd (shell.load isSafari decode offset len index st)))
      as [k Hk].
    rewrite Hk.
    destruct (in_bounds (Z.of_nat (length (memory (core st)))) offset len)
      eqn:H.
    + rewrite load_table_length, length_grown by done.
      destruct (_ <=? index).
      * exists (S k). rewrite Nat.pow_succ_r'. lia.
      * by exists k.
    + rewrite load_out_of_bounds by done. by exists k.
Qed.

(** X16. When the index is at most the length of a table that is not empty,
    as when the core hands out the next free index, a unit that decodes and
    names that index is registered there and the call returns. *)
Theorem load_next_index (isSafari : bool)
    (decode : list Z -> option CodeUnit) (offset len index : Z) (st : State)
    (u : CodeUnit) :
  in_bounds (Z.of_nat (length (memory (core st)))) offset len = true ->
  (0 < length (table (core st)))%nat ->
  0 <= index <= Z.of_nat (length (table (core st))) ->
  decode (bytes_at offset len st) = Some u ->
  unit_index u = index ->
  exists st',
    shell.load isSafari decode offset len index st = (Ok tt, st')
    /\ index < Z.of_nat (length (table (core st')))
    /\ table (core st') !! Z.to_nat index = Some (Some (unit_entry u)).
Proof.
  intros Hb Hn Hi Hu Hui. rewrite load_unfold by done. cbv zeta.
  rewrite Hu, Hui.
  assert (Hroom : index < Z.of_nat (length (grown index (table (core st))))).
  { rewrite length_grown. destruct (_ <=? index) eqn:Hc; lia. }
  replace ((0 <=? index) && (index <? _)) with true
    by (symmetry; rewrite andb_true_iff, Z.leb_le, Z.ltb_lt; lia).
  eexists. split; [reflexivity|]. cbn [set_table core table].
  rewrite length_insert. split; [done|].
  apply list_lookup_insert_eq. lia.
Qed.

Lemma load_next_index_witness :
  exists st',
    shell.load false (fun _ => Some {| unit_index := 4; unit_entry := 7 |})
      0 0 4 machine
    = (Ok tt, st')
    /\ 4 < Z.of_nat (length (table (core st')))
    /\ table (core st') !! Z.to_nat 4 = Some (Some 7).
Proof.
  apply (load_next_index false
           (fun _ => Some {| unit_index := 4; unit_entry := 7 |})
           0 0 4 machine {| unit_index := 4; unit_entry := 7 |}).
  - reflexivity.
  - simpl. lia.
  - simpl. lia.
  - reflexivity.
  - reflexivity.
Defined.

(** X17. A blob that does not lie inside the memory makes [load] throw a
    [RangeError] before anything else happens: the table is not grown, even
    when the index is beyond it, and nothing is logged. *)
Theorem load_blob_outside_memory (isSafari : bool)
    (decode : list Z -> option CodeUnit) (offset len index : Z) (st : State) :
  offset < 0 \/ len < 0
  \/ Z.of_nat (length (memory (core st))) < offset + len ->
  shell.load isSafari decode offset len index st = (Throw RangeError, st).
Proof.
  intros H. apply load_out_of_bounds. unfold in_bounds.
  rewrite !andb_false_iff, !Z.leb_gt. lia.
Qed.

Lemma load_blob_outside_memory_witness :
  shell.load false reject 500 100 9 machine = (Throw RangeError, machine).
Proof.
  apply load_blob_outside_memory. right. right. simpl. lia.
Defined.

(** ** More on strings across the boundary *)

(** X18. A string for which there is no room at [here() + PAD_OFFSET] makes
    [pushString] throw a [RangeError] with nothing written and nothing
    pushed. *)
Theorem pushString_no_room (s : JS.string) (offset : Z) (st : State) :
  dp (core st) + PAD_OFFSET < 0
  \/ Z.of_nat (length (memory (core st)))
     < dp (core st) + PAD_OFFSET + Z.of_nat (length s) ->
  WAForth.pushString s offset st = (Throw RangeError, st).
Proof.
  intros H. unfold WAForth.pushString.
  erewrite bindM_ok; [|reflexivity].
  apply bindM_throw. unfold saveString. apply bindM_throw.
  unfold new_Uint8Array.
  replace (in_bounds _ _ _) with false; [done|].
  symmetry. unfold in_bounds.
  rewrite !andb_false_iff, !Z.leb_gt. lia.
Qed.

Lemma pushString_no_room_witness :
  WAForth.pushString (replicate 100 65) 0 machine
  = (Throw RangeError, machine).
Proof.
  apply pushString_no_room. right. unfold PAD_OFFSET. simpl. lia.
Defined.

(** X19. [pushString] writes inside its scratch region only: the memory
    keeps its length and every byte outside the region, and the table, the
    input buffer and the high-water mark are as before; the value returned
    is the address of the region plus [PAD_OFFSET]. *)
Theorem pushString_writes_scratch_only (s : JS.string) (offset : Z)
    (st : State) :
  scratch_fits s st ->
  let addr := dp (core st) + PAD_OFFSET in
  exists st',
    WAForth.pushString s offset st = (Ok (addr + PAD_OFFSET), st')
    /\ length (memory (core st')) = length (memory (core st))
    /\ (forall j : nat,
          (Z.of_nat j < addr \/ addr + Z.of_nat (length s) <= Z.of_nat j) ->
          memory (core st') !! j = memory (core st) !! j)
    /\ table (core st') = table (core st)
    /\ dp (core st') = dp (core st)
    /\ buffer st' = buffer st
    /\ console st' = console st.
Proof.
  intros Hfit. cbv zeta. pose proof Hfit as (H0 & H1 & H2).
  eexists. split; [by apply pushString_spec|].
  cbn [set_stack set_memory core memory table dp buffer console].
  split; [apply length_inserts|]. split; [|done].
  intros j Hj. apply list_inserts_outside. rewrite length_map. lia.
Qed.

Lemma pushString_writes_scratch_only_witness :
  exists st',
    WAForth.pushString [65; 66] 0 machine = (Ok 816, st')
    /\ length (memory (core st')) = 512%nat.
Proof.
  destruct (pushString_writes_scratch_only [65; 66] 0 machine)
    as (st' & H & Hl & _).
  - unfold scratch_fits, PAD_OFFSET. simpl. lia.
  - exists st'. split; [exact H|exact Hl].
Defined.

(** X20. For every string that fits the scratch space, [pushString]
    followed at once by [popString] returns the string of the same length
    whose code units are those of the argument reduced modulo 256 when the
    string has no more code units than the engine lets [apply] pass, and
    throws a [RangeError] when it has more. *)
Theorem pushString_popString_modulo_256 (s : JS.string) (st : State) :
  scratch_fits s st ->
  fst ((WAForth.pushString s 0 ;; WAForth.popString) st)
  = if Z.of_nat (length s) <=? arguments_max st
    then Ok (map ToUint8 s)
    else Throw RangeError.
Proof.
  intros Hfit.
  destruct (Z.of_nat (length s) <=? arguments_max st) eqn:Hmax;
    [apply Z.leb_le in Hmax
    |apply Z.leb_gt in Hmax; by apply pushString_popString_too_long].
  pose proof Hfit as (H0 & H1 & H2).
  rewrite (bindM_ok _ _ _ _ _ (pushString_spec s 0 st Hfit)).
  erewrite popString_spec; [|reflexivity| |done].
  - cbn [fst]. by rewrite bytes_at_written by lia.
  - cbn [set_stack set_memory core memory]. rewrite length_inserts.
    apply in_bounds_true; lia.
Qed.

Lemma pushString_popString_modulo_256_witness :
  fst ((WAForth.pushString [65; 8364; 66] 0 ;; WAForth.popString) machine)
  = Ok [65; 172; 66].
Proof.
  apply (pushString_popString_modulo_256 [65; 8364; 66] machine).
  unfold scratch_fits, PAD_OFFSET. simpl. lia.
Defined.

(** X21. [popString] on a pair that does not describe a region of the
    memory (a negative length or address, or a region past the end) throws a
    [RangeError], and the two cells are gone from the stack. *)
Theorem popString_outside_memory (len addr : Z) (rest : list Z)
    (st : State) :
  stack (core st) = len :: addr :: rest ->
  addr < 0 \/ len < 0
  \/ Z.of_nat (length (memory (core st))) < addr + len ->
  WAForth.popString st = (Throw RangeError, set_stack rest st).
Proof.
  intros Hs H. unfold WAForth.popString.
  rewrite (pop_pop _ _ _ _ _ Hs). unfold loadString.
  apply bindM_throw. unfold new_Uint8Array.
  replace (in_bounds _ _ _) with false; [done|].
  symmetry. unfold in_bounds.
  cbn [set_stack core memory].
  rewrite !andb_false_iff, !Z.leb_gt. lia.
Qed.

Lemma popString_outside_memory_witness :
  WAForth.popString (set_stack [-1; 16; 9] machine)
  = (Throw RangeError, set_stack [9] machine).
Proof.
  apply (popString_outside_memory (-1) 16 [9] (set_stack [-1; 16; 9] machine)).
  - reflexivity.
  - right. left. lia.
Defined.

(** ** More on the input buffer *)

Lemma TextEncoder_encode_ascii (s : JS.string) :
  is_ascii_string s -> TextEncoder_encode s = s.
Proof.
  induction 1 as [|c s Hc _ IH]; [done|].
  cbn [TextEncoder_encode]. unfold is_high_surrogate, is_low_surrogate.
  replace (55296 <=? c) with false by (symmetry; apply Z.leb_gt; lia).
  replace (56320 <=? c) with false by (symmetry; apply Z.leb_gt; lia).
  cbn [andb]. unfold utf8_of_code_point.
  replace (c <? 128) with true by (symmetry; apply Z.ltb_lt; lia).
  cbn [app]. by rewrite IH.
Qed.

(** X22. Source text of ASCII characters reaches the core character for
    character: after [read s] the next [s.length] calls of [getc] return the
    code units of [s] in order, and the buffer is as it was before. *)
Theorem read_ascii_verbatim (s : JS.string) (st : State) :
  is_ascii_string s ->
  drain (length s) (snd (WAForth.read s st)) = (Ok s, st).
Proof.
  intros Hs. rewrite read_spec. cbn [snd].
  rewrite (TextEncoder_encode_ascii s Hs).
  rewrite (drain_top s (buffer st)) by reflexivity.
  by rewrite set_buffer_twice, set_buffer_same.
Qed.

Lemma read_ascii_verbatim_witness :
  drain 3 (snd (WAForth.read [49; 32; 46] machine))
  = (Ok [49; 32; 46], machine).
Proof.
  apply (read_ascii_verbatim [49; 32; 46] machine).
  constructor; [lia|]. constructor; [lia|]. constructor; [lia|]. constructor.
Defined.

Lemma lor_byte a b : 0 <= a < 256 -> 0 <= b < 256 -> 0 <= Z.lor a b < 256.
Proof.
  intros Ha Hb. split; [apply Z.lor_nonneg; lia|].
  destruct (Z.eq_dec (Z.lor a b) 0) as [->|Hz]; [lia|].
  assert (0 < Z.lor a b) by (pose proof (Z.lor_nonneg a b); lia).
  change 256 with (2 ^ 8). apply Z.log2_lt_pow2; [done|].
  rewrite Z.log2_lor by lia.
  assert (Hl : forall x, 0 <= x < 256 -> Z.log2 x < 8).
  { intros x Hx. destruct (Z.eq_dec x 0) as [->|]; [done|].
    apply Z.log2_lt_pow2; lia. }
  pose proof (Hl a Ha). pose proof (Hl b Hb). lia.
Qed.

Lemma land_63 x : 0 <= Z.land x 63 < 64.
Proof.
  change 63 with (Z.ones 6). rewrite Z.land_ones by lia.
  apply Z.mod_pos_bound. lia.
Qed.

Lemma shiftr_bound x n m :
  0 <= n -> 0 <= x < m * 2 ^ n -> 0 <= Z.shiftr x n < m.
Proof.
  intros Hn Hx. rewrite Z.shiftr_div_pow2 by done.
  assert (0 < 2 ^ n) by (apply Z.pow_pos_nonneg; lia).
  split; [apply Z.div_pos; lia|].
  apply Z.div_lt_upper_bound; lia.
Qed.

Lemma utf8_of_code_point_bytes cp :
  0 <= cp < 2 ^ 21 -> all_bytes (utf8_of_code_point cp).
Proof.
  intros Hcp. unfold utf8_of_code_point, all_bytes.
  pose proof (land_63 cp) as L0.
  pose proof (land_63 (Z.shiftr cp 6)) as L6.
  pose proof (land_63 (Z.shiftr cp 12)) as L12.
  destruct (cp <? 128) eqn:H1.
  { apply Z.ltb_lt in H1. constructor; [lia|constructor]. }
  destruct (cp <? 2048) eqn:H2.
  { apply Z.ltb_lt in H2.
    apply Z.ltb_ge in H1.
    pose proof (shiftr_bound cp 6 32 ltac:(lia) ltac:(lia)) as S6.
    repeat (constructor; [apply lor_byte; lia|]). constructor. }
  destruct (cp <? 65536) eqn:H3.
  { apply Z.ltb_lt in H3.
    pose proof (shiftr_bound cp 12 16 ltac:(lia) ltac:(lia)) as S12.
    repeat (constructor; [apply lor_byte; lia|]). constructor. }
  pose proof (shiftr_bound cp 18 8 ltac:(lia) ltac:(lia)) as S18.
  repeat (constructor; [apply lor_byte; lia|]). constructor.
Qed.

Lemma pair_code_point_bound hi lo :
  is_high_surrogate hi = true -> is_low_surrogate lo = true ->
  0 <= pair_code_point hi lo < 2 ^ 21.
Proof.
  unfold is_high_surrogate, is_low_surrogate, pair_code_point.
  rewrite !andb_true_iff, !Z.leb_le. intros [? ?] [? ?].
  rewrite Z.shiftl_mul_pow2 by lia. lia.
Qed.

Lemma TextEncoder_encode_bytes (s : JS.string) :
  is_string s -> all_bytes (TextEncoder_encode s).
Proof.
  assert (Hfffd : all_bytes (utf8_of_code_point 65533))
    by (apply utf8_of_code_point_bytes; lia).
  assert (Hgen : forall n (s : JS.string),
            (length s <= n)%nat -> is_string s ->
            all_bytes (TextEncoder_encode s)).
  { clear s. induction n as [|n IH]; intros s Hn Hs.
    - destruct s; [constructor|simpl in Hn; lia].
    - destruct s as [|c rest]; [constructor|].
      apply Forall_cons in Hs as [Hc Hrest]. unfold is_code_unit in Hc.
      simpl in Hn. cbn [TextEncoder_encode].
      destruct (is_high_surrogate c) eqn:Hh.
      + destruct rest as [|d rest']; [done|].
        apply Forall_cons in Hrest as [Hd Hrest'].
        destruct (is_low_surrogate d) eqn:Hl.
        * apply Forall_app. split.
          -- apply utf8_of_code_point_bytes. by apply pair_code_point_bound.
          -- apply IH; [simpl in Hn; lia|done].
        * apply Forall_app. split; [done|].
          apply IH; [lia|]. by apply Forall_cons.
      + destruct (is_low_surrogate c).
        * apply Forall_app. split; [done|]. apply IH; [lia|done].
        * apply Forall_app. split.
          -- apply utf8_of_code_point_bytes. lia.
          -- apply IH; [lia|done]. }
  apply (Hgen (length s)). lia.
Qed.

(** X23. [read] queues bytes only: when the input buffer holds bytes, it
    still does after [read s], for every string [s]. *)
Theorem read_keeps_bytes (s : JS.string) (st : State) :
  is_string s ->
  all_bytes (buffer st) ->
  all_bytes (buffer (snd (WAForth.read s st))).
Proof.
  intros Hs Hb. rewrite read_spec. cbn [snd set_buffer buffer].
  apply Forall_app. split; [done|].
  apply Forall_reverse. by apply TextEncoder_encode_bytes.
Qed.

Lemma read_keeps_bytes_witness :
  all_bytes (buffer (snd (WAForth.read [233; 55357; 56832] machine))).
Proof.
  apply (read_keeps_bytes [233; 55357; 56832] machine).
  - constructor; [unfold is_code_unit; lia|].
    constructor; [unfold is_code_unit; lia|].
    constructor; [unfold is_code_unit; lia|]. constructor.
  - constructor.
Defined.

(** X24. On a buffer of bytes the end-of-input value cannot be mistaken for
    input: [getc] returns -1 exactly when the buffer is empty, and otherwise
    returns the last byte queued and removes it. *)
Theorem getc_sentinel_iff_empty (st : State) :
  all_bytes (buffer st) ->
  (fst (shell.getc st) = Ok (-1) <-> buffer st = [])
  /\ forall b c, buffer st = b ++ [c] ->
       shell.getc st = (Ok c, set_buffer b st).
Proof.
  intros Hb. split; [|intros b c; apply getc_top].
  split.
  - destruct (buffer st) as [|x l] eqn:Hbuf using rev_ind; [done|].
    clear IHl. rewrite (getc_top l x st Hbuf). cbn [fst].
    intros [= ->].
    apply Forall_app in Hb as [_ Hx]. apply Forall_cons in Hx as [Hx _]. lia.
  - intros He. by rewrite getc_empty.
Qed.

Lemma getc_sentinel_iff_empty_witness :
  (fst (shell.getc (set_buffer [66; 65] machine)) = Ok (-1)
   <-> buffer (set_buffer [66; 65] machine) = []).
Proof.
  apply (getc_sentinel_iff_empty (set_buffer [66; 65] machine)).
  constructor; [lia|]. constructor; [lia|]. constructor.
Defined.

Lemma ends_with_high_surrogate_tail c d (s : JS.string) :
  ends_with_high_surrogate (c :: d :: s) = ends_with_high_surrogate (d :: s).
Proof. reflexivity. Qed.

Lemma TextEncoder_encode_app (s1 s2 : JS.string) :
  ends_with_high_surrogate s1 = false ->
  TextEncoder_encode (s1 ++ s2)
  = TextEncoder_encode s1 ++ TextEncoder_encode s2.
Proof.
  assert (Hgen : forall n (s1 : JS.string),
            (length s1 <= n)%nat ->
            ends_with_high_surrogate s1 = false ->
            TextEncoder_encode (s1 ++ s2)
            = TextEncoder_encode s1 ++ TextEncoder_encode s2).
  { clear s1. induction n as [|n IH]; intros s1 Hn He.
    - destruct s1; [done|simpl in Hn; lia].
    - destruct s1 as [|c rest]; [done|]. simpl in Hn.
      assert (Hrest : ends_with_high_surrogate rest = false).
      { destruct rest; [done|]. by rewrite ends_with_high_surrogate_tail in He. }
      cbn [app TextEncoder_encode].
      destruct (is_high_surrogate c) eqn:Hh.
      + destruct rest as [|d rest'].
        * unfold ends_with_high_surrogate in He. simpl in He. congruence.
        * cbn [app]. destruct (is_low_surrogate d).
          -- rewrite IH; [by rewrite app_assoc|simpl in Hn; lia|].
             destruct rest'; [done|].
             by rewrite ends_with_high_surrogate_tail in Hrest.
          -- change (d :: rest' ++ s2) with ((d :: rest') ++ s2).
             rewrite IH by (done || lia). by rewrite app_assoc.
      + destruct (is_low_surrogate c);
          rewrite IH by (done || lia); by rewrite app_assoc. }
  apply (Hgen (length s1)). lia.
Qed.

(** X25. Text can be queued in pieces, last piece first: when the first
    piece does not end in the first half of a surrogate pair, [read] of the
    second piece followed by [read] of the first leaves the buffer as one
    [read] of the whole text does. *)
Theorem read_in_pieces (s1 s2 : JS.string) (st : State) :
  ends_with_high_surrogate s1 = false ->
  (WAForth.read s2 ;; WAForth.read s1) st = WAForth.read (s1 ++ s2) st.
Proof.
  intros He. rewrite (bindM_ok _ _ _ _ _ (read_spec s2 st)).
  rewrite !read_spec, TextEncoder_encode_app by done.
  cbn [buffer set_buffer]. rewrite set_buffer_twice.
  by rewrite reverse_app, app_assoc.
Qed.

Lemma read_in_pieces_witness :
  (WAForth.read [50; 32] ;; WAForth.read [49; 32]) machine
  = WAForth.read ([49; 32] ++ [50; 32]) machine.
Proof.
  apply (read_in_pieces [49; 32] [50; 32] machine). reflexivity.
Defined.

(** ** More on the dispatcher *)

(** X26. A call of a name dispatches to the handler registered last under
    it: after [bind name fn], whatever was bound before, the call runs [fn]
    on the state with the two cells of the name popped, and what [fn] throws
    reaches the core. *)
Theorem call_after_bind
    (function_member : Handler -> JS.string -> shell.Member)
    (fns : gmap JS.string Handler) (fn : Handler)
    (len addr : Z) (rest : list Z) (st : State) :
  stack (core st) = len :: addr :: rest ->
  in_bounds (Z.of_nat (length (memory (core st)))) addr len = true ->
  len <= arguments_max st ->
  shell.call function_member (WAForth.bind (bytes_at addr len st) fn fns) st
  = (fn ;; ret tt) (set_stack rest st).
Proof.
  intros Hs Hb Hmax.
  apply (call_bound _ _ fn len addr rest st Hs Hb Hmax).
  unfold WAForth.bind. apply lookup_insert_eq.
Qed.

Lemma call_after_bind_witness :
  shell.call (fun _ _ => shell.Falsy)
    (WAForth.bind [0; 0] double (WAForth.bind [0; 0] (throw TypeError) ∅))
    (set_stack [2; 16; 21] machine)
  = (Ok tt, set_stack [42] machine).
Proof.
  apply (call_after_bind (fun _ _ => shell.Falsy)
           (WAForth.bind [0; 0] (throw TypeError) ∅) double
           2 16 [21] (set_stack [2; 16; 21] machine)).
  - reflexivity.
  - reflexivity.
  - simpl. lia.
Defined.

(** X27. Binding a name other than ["__proto__"] does not change how calls
    of other names are dispatched. (Binding ["__proto__"] replaces the
    prototype of [#fns], and with it what unbound names resolve to.) *)
Theorem call_bind_other
    (function_member : Handler -> JS.string -> shell.Member)
    (fns : gmap JS.string Handler) (fn : Handler)
    (nm : JS.string) (len addr : Z) (rest : list Z) (st : State) :
  stack (core st) = len :: addr :: rest ->
  in_bounds (Z.of_nat (length (memory (core st)))) addr len = true ->
  nm <> bytes_at addr len st ->
  nm <> Literal.name_proto ->
  shell.call function_member (WAForth.bind nm fn fns) st
  = shell.call function_member fns st.
Proof.
  intros Hs Hb Hne Hproto.
  destruct (Z.leb_spec len (arguments_max st)) as [Hmax|Hmax].
  - rewrite !(call_resolved _ _ _ _ _ _ Hs Hb Hmax).
    unfold shell.property, WAForth.bind. unfold Handler, JS.string in *.
    by rewrite !lookup_insert_ne.
  - unfold shell.call. rewrite !(pop_pop _ _ _ _ _ Hs).
    by rewrite !(bindM_throw _ _ _ _ _
                   (loadString_too_long addr len (set_stack rest st) Hb Hmax)).
Qed.

Lemma call_bind_other_witness :
  shell.call (fun _ _ => shell.Falsy) (WAForth.bind [100] double ∅)
    (set_stack [2; 16; 21] machine)
  = shell.call (fun _ _ => shell.Falsy) ∅ (set_stack [2; 16; 21] machine).
Proof.
  apply (call_bind_other (fun _ _ => shell.Falsy) ∅ double [100] 2 16 [21]
           (set_stack [2; 16; 21] machine)).
  - reflexivity.
  - reflexivity.
  - discriminate.
  - discriminate.
Defined.

(** Binding ["__proto__"] does change other names: on an engine where a
    function has a member under the name, the name is no longer logged as
    unbound. *)
Example call_after_bind_proto :
  let engine (f : Handler) (nm : JS.string) := shell.NotCallable in
  let st := set_stack [2; 16] machine in
  fst (shell.call engine ∅ st) = Ok tt
  /\ fst (shell.call engine (WAForth.bind Literal.name_proto double ∅) st)
     = Throw TypeError.
Proof. cbv zeta. split; vm_compute; reflexivity. Qed.

(** X28. A name handed over with [pushString] is dispatched by [call] to the
    handler bound under it, when the name has no more code units than the
    engine lets [apply] pass: the handler runs on the stack as it was before
    the name was pushed, with the name left in the scratch region. *)
Theorem pushString_then_call
    (function_member : Handler -> JS.string -> shell.Member)
    (fns : gmap JS.string Handler) (fn : Handler)
    (nm : JS.string) (st : State) :
  is_byte_string nm ->
  scratch_fits nm st ->
  Z.of_nat (length nm) <= arguments_max st ->
  (WAForth.pushString nm 0 ;;
   shell.call function_member (WAForth.bind nm fn fns)) st
  = (fn ;; ret tt)
      (set_memory
         (list_inserts (Z.to_nat (dp (core st) + PAD_OFFSET)) nm
            (memory (core st))) st).
Proof.
  intros Hn Hfit Hmax. pose proof Hfit as (H0 & H1 & H2).
  rewrite (bindM_ok _ _ _ _ _ (pushString_spec nm 0 st Hfit)).
  erewrite call_bound; [|reflexivity| |done|].
  - by rewrite map_ToUint8_byte_string.
  - cbn [set_stack set_memory core memory]. rewrite length_inserts.
    apply in_bounds_true; lia.
  - rewrite bytes_at_written by lia.
    rewrite map_ToUint8_byte_string by done.
    unfold WAForth.bind. apply lookup_insert_eq.
Qed.

Lemma pushString_then_call_witness :
  (WAForth.pushString double_name 0 ;;
   shell.call (fun _ _ => shell.Falsy)
     (WAForth.bind double_name double ∅))
    (set_stack [21] machine)
  = (double ;; ret tt)
      (set_memory
         (list_inserts (Z.to_nat (dp (core machine) + PAD_OFFSET))
            double_name (memory (core machine)))
         (set_stack [21] machine)).
Proof.
  apply (pushString_then_call (fun _ _ => shell.Falsy) ∅ double double_name
           (set_stack [21] machine)).
  - unfold double_name. repeat (constructor; [lia|]). constructor.
  - unfold scratch_fits, PAD_OFFSET. simpl. lia.
  - simpl. lia.
Defined.

Lemma async_handler_returns (exports_interpret : M Z) (fn : M Promise) st :
  exists p st',
    WAForth.async_handler exports_interpret fn st = (Ok (APromise p), st').
Proof.
  unfold WAForth.async_handler.
  destruct (WAForth.pop st) as [[cbxt|e] st1]; [|by eauto].
  destruct (fn st1) as [[p|e] st2]; [by eauto|].
  destruct (WAForth.resumption _ _ _ st2) as [r st3]. by eauto.
Qed.

(** X29. A call of a name bound with [bindAsync] never throws into the core
    once the name has been read: whatever the operation does, also when it
    throws before it returns a promise, the call returns. *)
Theorem call_async_never_throws (exports_interpret : M Z)
    (function_member : Handler -> JS.string -> shell.Member)
    (fns : gmap JS.string Handler) (fn : M Promise)
    (len addr : Z) (rest : list Z) (st : State) :
  stack (core st) = len :: addr :: rest ->
  in_bounds (Z.of_nat (length (memory (core st)))) addr len = true ->
  len <= arguments_max st ->
  exists st',
    shell.call function_member
      (WAForth.bindAsync exports_interpret (bytes_at addr len st) fn fns) st
    = (Ok tt, st').
Proof.
  intros Hs Hb Hmax.
  erewrite call_bound; [|exact Hs|exact Hb|exact Hmax|apply lookup_insert_eq].
  destruct (async_handler_returns exports_interpret fn (set_stack rest st))
    as (p & st' & Hh).
  exists st'. by rewrite (bindM_ok _ _ _ _ _ Hh).
Qed.

Lemma call_async_never_throws_witness :
  exists st',
    shell.call (fun _ _ => shell.Falsy)
      (WAForth.bindAsync idle [0; 0] (throw TypeError) ∅)
      (set_stack [2; 16; 7] machine)
    = (Ok tt, st').
Proof.
  apply (call_async_never_throws idle (fun _ _ => shell.Falsy) ∅
           (throw TypeError) 2 16 [7] (set_stack [2; 16; 7] machine)).
  - reflexivity.
  - reflexivity.
  - simpl. lia.
Defined.
